(** * Atlas travel app: tracking and photo-curation engines

    Shallow embedding of the algorithmic parts of the TypeScript sources:
    - [utils/helpers.ts]: [calculateDistance], [calculateSpeed],
      [inferActivityFromSpeed], [retryWithBackoff];
    - [services/TrackerService.ts]: tracker lifecycle and update interval;
    - [services/CurationService.ts]: [clusterPhotos], [finalizeCluster].

    JavaScript numbers used as measurements (coordinates, distances, speeds)
    are modelled as real numbers; timestamps ([Date.getTime()]) as integer
    milliseconds in [Z]; retry counts and delays as [nat]. *)

From Stdlib Require Import Reals Lra Lia ZArith String List Bool.
From Stdlib Require Import Sorted Permutation RelationClasses.
Import ListNotations.

Open Scope R_scope.

(** ** Models *)

Record GeoPoint := mkGeoPoint { latitude : R; longitude : R }.

(** [type ActivityType = 'stationary' | 'walking' | 'driving' | 'flying' | 'train' | 'cycling'] *)
Inductive ActivityType :=
| stationary | walking | driving | flying | train | cycling.

(** ** Constants (utils/constants.ts) *)

Module TRACKING_CONFIG.
Definition ACTIVE_INTERVAL : Z := 30000%Z.
Definition IDLE_INTERVAL : Z := 300000%Z.
Definition STATIONARY_INTERVAL : Z := 600000%Z.
Definition BATTERY_SAVER_THRESHOLD : R := 2 / 10.
End TRACKING_CONFIG.

Module CURATION_CONFIG.
Definition MIN_QUALITY_SCORE : R := 5 / 10.
Definition TIME_CLUSTER_WINDOW : Z := 3600000%Z.
Definition LOCATION_CLUSTER_RADIUS : R := 200.
End CURATION_CONFIG.

(** ** Geolocation helpers *)

(** [Math.atan2] on finite arguments. *)
Definition atan2 (y x : R) : R :=
  if Rlt_dec 0 x then atan (y / x)
  else if Rlt_dec x 0 then
    (if Rle_dec 0 y then atan (y / x) + PI else atan (y / x) - PI)
  else if Rlt_dec 0 y then PI / 2
  else if Rlt_dec y 0 then - (PI / 2)
  else 0.

(** [calculateDistance]: haversine distance in meters. *)
Definition calculateDistance (point1 point2 : GeoPoint) : R :=
  let R0 := 6371 * 1000 in
  let phi1 := latitude point1 * PI / 180 in
  let phi2 := latitude point2 * PI / 180 in
  let dphi := (latitude point2 - latitude point1) * PI / 180 in
  let dlambda := (longitude point2 - longitude point1) * PI / 180 in
  let a := sin (dphi / 2) * sin (dphi / 2) +
           cos phi1 * cos phi2 * sin (dlambda / 2) * sin (dlambda / 2) in
  let c := 2 * atan2 (sqrt a) (sqrt (1 - a)) in
  R0 * c.

(** [calculateSpeed]: meters per second between two timestamped points. *)
Definition calculateSpeed (point1 point2 : GeoPoint) (time1 time2 : Z) : R :=
  let distance := calculateDistance point1 point2 in
  let timeDiff := IZR (time2 - time1) / 1000 in
  if Rlt_dec 0 timeDiff then distance / timeDiff else 0.

(** [inferActivityFromSpeed]. *)
Definition inferActivityFromSpeed (speedMs : R) : ActivityType :=
  if Rlt_dec speedMs 1 then stationary
  else if Rlt_dec speedMs 2 then walking
  else if Rlt_dec speedMs 20 then driving
  else if Rlt_dec speedMs 55 then train
  else flying.

(** ** TrackerService *)

Module Tracker.

(** [type TrackerState = 'stopped' | 'active' | 'paused'] *)
Inductive TrackerState := stopped | active | paused.

Record LocationUpdate := mkLocationUpdate {
  lu_location : GeoPoint;
  lu_accuracy : R;
  lu_timestamp : Z;
}.

Record RawLocation := mkRawLocation {
  rl_id : nat;
  rl_tripId : option string;
  rl_location : GeoPoint;
  rl_timestamp : Z;
  rl_activity : ActivityType;
  rl_batteryLevel : option R;
  rl_isProcessed : bool;
}.

Record TrackerConfig := mkTrackerConfig {
  isActive : bool;
  cfg_currentTripId : option string;
  updateInterval : Z;
}.

(** The service object together with the part of its environment it
    touches: [locationStorage] (pending fixes), [settingsStorage] (saved
    config), the device location source and the UUID generator. Timers are
    represented by the period they were created with. *)
Record World := mkWorld {
  state : TrackerState;
  currentTripId : option string;
  lastLocation : option LocationUpdate;
  currentActivity : ActivityType;
  config : option TrackerConfig;
  trackingInterval : option Z;
  syncInterval : option Z;
  pendingLocations : list RawLocation;
  savedConfig : option TrackerConfig;
  deviceLocation : option LocationUpdate;
  nextUUID : nat;
}.

(** Observable effects, in program order. Writes of the [state] field are
    logged so that the order of the lifecycle change relative to the other
    effects can be read off the trace. *)
Inductive Event :=
| EvSetState (s : TrackerState)
| EvClearInterval (period : Z)
| EvSetInterval (period : Z)
| EvSync (pending : list RawLocation)
| EvSaveConfig (c : TrackerConfig).

Inductive Exn := LocationPermissionNotGranted | NoActiveTripToResume.

(** State, error and trace monad of the service's async methods. *)
Definition M (A : Type) := World -> (Exn + A) * World * list Event.

Definition ret {A} (a : A) : M A := fun w => (inr a, w, []).
Definition throw {A} (e : Exn) : M A := fun w => (inl e, w, []).
Definition bind {A B} (m : M A) (k : A -> M B) : M B :=
  fun w => match m w with
           | (inl e, w', t) => (inl e, w', t)
           | (inr a, w', t) => let '(r, w'', t') := k a w' in (r, w'', t ++ t')
           end.
Definition catch {A} (m : M A) (h : Exn -> M A) : M A :=
  fun w => match m w with
           | (inl e, w', t) => let '(r, w'', t') := h e w' in (r, w'', t ++ t')
           | ok => ok
           end.
Definition get : M World := fun w => (inr w, w, []).
Definition modify (f : World -> World) : M unit := fun w => (inr tt, f w, []).
Definition emit (e : Event) : M unit := fun w => (inr tt, w, [e]).

Notation "x <- c1 ;; c2" := (bind c1 (fun x => c2))
  (at level 61, c1 at next level, right associativity).
Notation "c1 ;; c2" := (bind c1 (fun _ => c2)) (at level 61, right associativity).

Definition set_state (s : TrackerState) : M unit :=
  modify (fun w => mkWorld s w.(currentTripId) w.(lastLocation) w.(currentActivity)
    w.(config) w.(trackingInterval) w.(syncInterval) w.(pendingLocations)
    w.(savedConfig) w.(deviceLocation) w.(nextUUID)) ;;
  emit (EvSetState s).
Definition set_currentTripId (t : option string) : M unit :=
  modify (fun w => mkWorld w.(state) t w.(lastLocation) w.(currentActivity)
    w.(config) w.(trackingInterval) w.(syncInterval) w.(pendingLocations)
    w.(savedConfig) w.(deviceLocation) w.(nextUUID)).
Definition set_lastLocation (l : option LocationUpdate) : M unit :=
  modify (fun w => mkWorld w.(state) w.(currentTripId) l w.(currentActivity)
    w.(config) w.(trackingInterval) w.(syncInterval) w.(pendingLocations)
    w.(savedConfig) w.(deviceLocation) w.(nextUUID)).
Definition set_currentActivity (a : ActivityType) : M unit :=
  modify (fun w => mkWorld w.(state) w.(currentTripId) w.(lastLocation) a
    w.(config) w.(trackingInterval) w.(syncInterval) w.(pendingLocations)
    w.(savedConfig) w.(deviceLocation) w.(nextUUID)).
Definition set_config (c : option TrackerConfig) : M unit :=
  modify (fun w => mkWorld w.(state) w.(currentTripId) w.(lastLocation)
    w.(currentActivity) c w.(trackingInterval) w.(syncInterval)
    w.(pendingLocations) w.(savedConfig) w.(deviceLocation) w.(nextUUID)).
Definition set_trackingInterval (i : option Z) : M unit :=
  modify (fun w => mkWorld w.(state) w.(currentTripId) w.(lastLocation)
    w.(currentActivity) w.(config) i w.(syncInterval) w.(pendingLocations)
    w.(savedConfig) w.(deviceLocation) w.(nextUUID)).
Definition set_syncInterval (i : option Z) : M unit :=
  modify (fun w => mkWorld w.(state) w.(currentTripId) w.(lastLocation)
    w.(currentActivity) w.(config) w.(trackingInterval) i w.(pendingLocations)
    w.(savedConfig) w.(deviceLocation) w.(nextUUID)).

(** [settingsStorage.saveTrackerConfig] *)
Definition saveTrackerConfig (c : TrackerConfig) : M unit :=
  modify (fun w => mkWorld w.(state) w.(currentTripId) w.(lastLocation)
    w.(currentActivity) w.(config) w.(trackingInterval) w.(syncInterval)
    w.(pendingLocations) (Some c) w.(deviceLocation) w.(nextUUID)) ;;
  emit (EvSaveConfig c).

(** [locationStorage.savePendingLocation]: appends to the stored list. *)
Definition savePendingLocation (l : RawLocation) : M unit :=
  modify (fun w => mkWorld w.(state) w.(currentTripId) w.(lastLocation)
    w.(currentActivity) w.(config) w.(trackingInterval) w.(syncInterval)
    (w.(pendingLocations) ++ [l]) w.(savedConfig) w.(deviceLocation) w.(nextUUID)).

Definition generateUUID : M nat :=
  w <- get ;;
  modify (fun w => mkWorld w.(state) w.(currentTripId) w.(lastLocation)
    w.(currentActivity) w.(config) w.(trackingInterval) w.(syncInterval)
    w.(pendingLocations) w.(savedConfig) w.(deviceLocation) (S w.(nextUUID))) ;;
  ret w.(nextUUID).

(** [clearInterval] on the handle if there is one. *)
Definition clearTrackingInterval : M unit :=
  w <- get ;;
  match w.(trackingInterval) with
  | Some p => emit (EvClearInterval p) ;; set_trackingInterval None
  | None => ret tt
  end.
Definition clearSyncInterval : M unit :=
  w <- get ;;
  match w.(syncInterval) with
  | Some p => emit (EvClearInterval p) ;; set_syncInterval None
  | None => ret tt
  end.

(** [getUpdateInterval]: reads [this.currentActivity] only. *)
Definition getUpdateInterval (currentActivity : ActivityType) : Z :=
  match currentActivity with
  | stationary => TRACKING_CONFIG.STATIONARY_INTERVAL
  | walking => TRACKING_CONFIG.ACTIVE_INTERVAL
  | driving | flying | train => TRACKING_CONFIG.ACTIVE_INTERVAL
  | _ => TRACKING_CONFIG.IDLE_INTERVAL
  end.

(** [captureLocation] (errors are caught and logged in the source; none
    arise in this model). *)
Definition captureLocation : M unit :=
  w <- get ;;
  match w.(deviceLocation) with
  | None => ret tt
  | Some locationUpdate =>
      (match w.(lastLocation) with
       | Some last =>
           set_currentActivity (inferActivityFromSpeed
             (calculateSpeed last.(lu_location) locationUpdate.(lu_location)
                last.(lu_timestamp) locationUpdate.(lu_timestamp)))
       | None => ret tt
       end) ;;
      id <- generateUUID ;;
      w' <- get ;;
      savePendingLocation (mkRawLocation id w'.(currentTripId)
        locationUpdate.(lu_location) locationUpdate.(lu_timestamp)
        w'.(currentActivity) None false) ;;
      set_lastLocation (Some locationUpdate)
  end.

(** [startTrackingLoop]: the period is computed once, here. *)
Definition startTrackingLoop : M unit :=
  clearTrackingInterval ;;
  w <- get ;;
  let interval := getUpdateInterval w.(currentActivity) in
  emit (EvSetInterval interval) ;;
  set_trackingInterval (Some interval) ;;
  captureLocation.

Definition startSyncLoop : M unit :=
  clearSyncInterval ;;
  emit (EvSetInterval 300000%Z) ;;
  set_syncInterval (Some 300000%Z).

(** [syncPendingLocations]: reads the pending fixes; the upload is a
    placeholder in the source and nothing is removed from storage. *)
Definition syncPendingLocations : M unit :=
  w <- get ;;
  match w.(pendingLocations) with
  | [] => ret tt
  | pending => emit (EvSync pending)
  end.

(** [startTracking]. [hasPermission] is the answer of the location
    permission capability ([checkLocationPermission]). The catch block logs
    and rethrows. *)
Definition startTracking (hasPermission : bool) (tripId : string) : M unit :=
  catch
    (if negb hasPermission then throw LocationPermissionNotGranted
     else
       set_currentTripId (Some tripId) ;;
       set_state active ;;
       set_currentActivity stationary ;;
       w <- get ;;
       (match w.(config) with
        | Some c =>
            let c' := mkTrackerConfig true (Some tripId) c.(updateInterval) in
            set_config (Some c') ;; saveTrackerConfig c'
        | None => ret tt
        end) ;;
       startTrackingLoop ;;
       startSyncLoop)
    throw.

(** [stopTracking]. The catch block logs and swallows. *)
Definition stopTracking : M unit :=
  catch
    (set_state stopped ;;
     set_currentTripId None ;;
     clearTrackingInterval ;;
     clearSyncInterval ;;
     syncPendingLocations ;;
     w <- get ;;
     match w.(config) with
     | Some c =>
         let c' := mkTrackerConfig false None c.(updateInterval) in
         set_config (Some c') ;; saveTrackerConfig c'
     | None => ret tt
     end)
    (fun _ => ret tt).

Definition pauseTracking : M unit :=
  set_state paused ;;
  clearTrackingInterval.


End Tracker.

(** ** retryWithBackoff (utils/helpers.ts) *)

Module Retry.

(** Observable effects: a call of [fn] (numbered from 0) and an awaited
    [sleep]. *)
Inductive Event := Call (i : nat) | Sleep (ms : Z).

Section RetryWithBackoff.

Variables A Err : Type.

(** The operation [fn]: the outcome of its [i]-th call ([inl e]: the
    promise rejects with [e]). *)
Variable fn : nat -> Err + A.

(** Outcome of [retryWithBackoff]: [Thrown (Some e)] rethrows the last
    error; [Thrown None] is [throw lastError!] with [lastError] still
    undefined. *)
Inductive Outcome := Returned (a : A) | Thrown (lastError : option Err).

(** [for (let i = 0; i < maxRetries; i++) { try { return await fn(); }
    catch (error) { lastError = error; if (i < maxRetries - 1) await
    sleep(baseDelay * Math.pow(2, i)); } } throw lastError!;]
    [k] is the number of iterations left, [maxRetries - i]. *)
Fixpoint retryLoop (maxRetries : nat) (baseDelay : Z) (i k : nat)
    (lastError : option Err) : list Event * Outcome :=
  match k with
  | O => ([], Thrown lastError)
  | S k' =>
      match fn i with
      | inr a => ([Call i], Returned a)
      | inl error =>
          let delay :=
            if Nat.ltb i (maxRetries - 1)
            then [Sleep (baseDelay * 2 ^ Z.of_nat i)%Z] else [] in
          let '(t, r) := retryLoop maxRetries baseDelay (S i) k' (Some error) in
          (Call i :: delay ++ t, r)
      end
  end.

Definition retryWithBackoff (maxRetries : nat) (baseDelay : Z) : list Event * Outcome :=
  retryLoop maxRetries baseDelay 0 maxRetries None.

(** Default arguments: [maxRetries = 3], [baseDelay = 1000]. *)
Definition retryWithBackoff_default : list Event * Outcome :=
  retryWithBackoff 3 1000.

End RetryWithBackoff.

Arguments Returned {A Err} a.
Arguments Thrown {A Err} lastError.

(** An operation that fails its first [n] calls with error [e n'] (for the
    [n']-th call) and then returns [a]. *)
Definition failsThenSucceeds {A Err} (n : nat) (e : nat -> Err) (a : A)
    (i : nat) : Err + A :=
  if Nat.ltb i n then inl (e i) else inr a.

End Retry.

(** ** CurationService clustering *)

Module Curation.

Record PhotoAnalysis := mkPhotoAnalysis {
  nativeId : string;
  isJunk : bool;
  junkScore : R;
  qualityScore : R;
  timestamp : Z;
  location : option GeoPoint;
  width : R;
  height : R;
}.

Record PhotoMetadata := mkPhotoMetadata {
  md_nativeId : string;
  md_timestamp : Z;
  md_location : option GeoPoint;
  md_isJunk : bool;
  md_qualityScore : R;
  md_width : R;
  md_height : R;
  md_fileName : option string;
}.

Record PhotoCluster := mkPhotoCluster {
  pc_id : nat;
  pc_tripId : string;
  pc_photos : list PhotoMetadata;
  centerLocation : GeoPoint;
  startTime : Z;
  endTime : Z;
  assignedStepId : option string;
}.

(** [photos.map(p => ({nativeId: p.nativeId, ...}))] in [finalizeCluster]. *)
Definition toMetadata (p : PhotoAnalysis) : PhotoMetadata :=
  mkPhotoMetadata p.(nativeId) p.(timestamp) p.(location) p.(isJunk)
    p.(qualityScore) p.(width) p.(height) None.

(** [[...photos].sort((a, b) => a.timestamp.getTime() - b.timestamp.getTime())].
    [Array.prototype.sort] is stable; modelled as a stable insertion sort:
    each photo goes after every photo already placed whose timestamp is not
    larger. *)
Fixpoint insertByTimestamp (x : PhotoAnalysis) (l : list PhotoAnalysis) :=
  match l with
  | [] => [x]
  | y :: l' =>
      if Z.leb y.(timestamp) x.(timestamp) then y :: insertByTimestamp x l'
      else x :: l
  end.

Definition sortByTimestamp (photos : list PhotoAnalysis) : list PhotoAnalysis :=
  fold_left (fun sorted x => insertByTimestamp x sorted) photos [].

(** [photos.filter(p => p.location)] followed by [reduce] over
    [p.location!.latitude] / [.longitude], starting from 0. *)
Definition photosWithLocation (photos : list PhotoAnalysis) :=
  filter (fun p => match p.(location) with Some _ => true | None => false end)
    photos.

Definition sumLatitude (ps : list PhotoAnalysis) : R :=
  fold_left (fun sum p => match p.(location) with
                          | Some g => sum + g.(latitude)
                          | None => sum end) ps 0.

Definition sumLongitude (ps : list PhotoAnalysis) : R :=
  fold_left (fun sum p => match p.(location) with
                          | Some g => sum + g.(longitude)
                          | None => sum end) ps 0.

(** [finalizeCluster]. The group is the non-empty array [first :: rest];
    [uuid] stands for the value [generateUUID()] returns (a random string
    in the source); it is only carried into the cluster, never inspected. *)
Definition finalizeCluster (uuid : nat) (first : PhotoAnalysis)
    (rest : list PhotoAnalysis) (tripId : string) : PhotoCluster :=
  let photos := first :: rest in
  let startTime := first.(timestamp) in
  let endTime := (last photos first).(timestamp) in
  let located := photosWithLocation photos in
  let centerLocation :=
    match located with
    | [] => mkGeoPoint 0 0
    | _ => mkGeoPoint (sumLatitude located / INR (List.length located))
                      (sumLongitude located / INR (List.length located))
    end in
  mkPhotoCluster uuid tripId (map toMetadata photos) centerLocation
    startTime endTime None.

(** The membership test of the loop, [photo] against [lastPhoto]. *)
Definition belongsToCluster (photo lastPhoto : PhotoAnalysis) : bool :=
  let timeDiff := (photo.(timestamp) - lastPhoto.(timestamp))%Z in
  let withinTimeWindow := Z.leb timeDiff CURATION_CONFIG.TIME_CLUSTER_WINDOW in
  let withinLocationRadius :=
    match photo.(location), lastPhoto.(location) with
    | Some a, Some b =>
        if Rle_dec (calculateDistance a b) CURATION_CONFIG.LOCATION_CLUSTER_RADIUS
        then true else false
    | _, _ => true
    end in
  withinTimeWindow && withinLocationRadius.

(** The [for] loop over [sorted[1..]]; [currentCluster] is [cur0 :: cur]
    (never empty, so the [currentCluster.length > 0] guards always hold);
    [clusters] is the array of emitted clusters. Returns the clusters and
    the next UUID. *)
Fixpoint clusterLoop (tripId : string) (uuid : nat) (cur0 : PhotoAnalysis)
    (cur : list PhotoAnalysis) (todo : list PhotoAnalysis)
    (clusters : list PhotoCluster) : list PhotoCluster * nat :=
  match todo with
  | [] => (clusters ++ [finalizeCluster uuid cur0 cur tripId], S uuid)
  | photo :: todo' =>
      let lastPhoto := last (cur0 :: cur) cur0 in
      if belongsToCluster photo lastPhoto
      then clusterLoop tripId uuid cur0 (cur ++ [photo]) todo' clusters
      else clusterLoop tripId (S uuid) photo [] todo'
             (clusters ++ [finalizeCluster uuid cur0 cur tripId])
  end.

(** [clusterPhotos(photos, trip)], with [trip.id = tripId]. The [nat]
    threaded through the loop only indexes the successive [generateUUID()]
    draws; the ids themselves are opaque. *)
Definition clusterPhotos (uuid : nat) (photos : list PhotoAnalysis)
    (tripId : string) : list PhotoCluster * nat :=
  match sortByTimestamp photos with
  | [] => ([], uuid)
  | first :: rest => clusterLoop tripId uuid first [] rest []
  end.

(** [selectFeaturedPhotos]: [[...photos].sort((a, b) => b.qualityScore -
    a.qualityScore)] (stable, so ties keep their input order), then
    [sorted.slice(0, count)]. *)
Fixpoint insertByQuality (x : PhotoMetadata) (l : list PhotoMetadata) :=
  match l with
  | [] => [x]
  | y :: l' =>
      if Rle_dec x.(md_qualityScore) y.(md_qualityScore)
      then y :: insertByQuality x l'
      else x :: l
  end.

Definition sortByQualityDesc (photos : list PhotoMetadata) : list PhotoMetadata :=
  fold_left (fun sorted x => insertByQuality x sorted) photos [].

(** [Array.prototype.slice(0, end)]: a negative [end] counts from the end
    of the array; the end is clamped to [0, length]. *)
Definition sliceTo {A : Type} (l : list A) (end_ : Z) : list A :=
  let len := Z.of_nat (List.length l) in
  let relativeEnd := if Z.ltb end_ 0 then Z.max (len + end_) 0 else Z.min end_ len in
  firstn (Z.to_nat relativeEnd) l.

Definition selectFeaturedPhotos (photos : list PhotoMetadata) (count : Z) :=
  sliceTo (sortByQualityDesc photos) count.

(** The quality gate of [curateTripPhotos]:
    [!p.isJunk && p.qualityScore >= CURATION_CONFIG.MIN_QUALITY_SCORE]. *)
Definition passesQualityGate (p : PhotoAnalysis) : bool :=
  negb p.(isJunk) &&
  (if Rle_dec CURATION_CONFIG.MIN_QUALITY_SCORE p.(qualityScore) then true else false).

Record CurationResult := mkCurationResult {
  photosProcessed : nat;
  photosAdded : nat;
  photosFiltered : nat;
  clustersCreated : nat;
}.

(** The fields of the service object. *)
Record CurationState := mkCurationState {
  isRunning : bool;
  lastScanTimestamp : option Z;
}.

Inductive CurationError := CurationAlreadyInProgress.

(** [curateTripPhotos(trip)]. The photo-library query
    ([getNewPhotosSince(trip.startDate)]) and the per-photo analysis
    ([analyzePhoto]) are external capabilities, passed in as [newPhotos] and
    [analyzePhoto]; [now] is [new Date()]; [uuid] seeds [generateUUID]. The
    [finally] block resets [isRunning] on every path past the guard. *)
Definition curateTripPhotos (st : CurationState) (newPhotos : list string)
    (analyzePhoto : string -> PhotoAnalysis) (now : Z) (uuid : nat)
    (tripId : string) : (CurationError + CurationResult) * CurationState :=
  if st.(isRunning) then (inl CurationAlreadyInProgress, st)
  else
    let photosProcessed := List.length newPhotos in
    match newPhotos with
    | [] => (inr (mkCurationResult 0 0 0 0),
             mkCurationState false st.(lastScanTimestamp))
    | _ =>
        let analyzedPhotos := map analyzePhoto newPhotos in
        let goodPhotos := filter passesQualityGate analyzedPhotos in
        let photosFiltered := (List.length analyzedPhotos - List.length goodPhotos)%nat in
        let photosAdded := List.length goodPhotos in
        let clusters := fst (clusterPhotos uuid goodPhotos tripId) in
        (inr (mkCurationResult photosProcessed photosAdded photosFiltered
                (List.length clusters)),
         mkCurationState false (Some now))
    end.

End Curation.

(** ** Other helpers of utils/helpers.ts *)

Module Helpers.


(** [clamp]: [Math.min(Math.max(value, min), max)]. *)
Definition clamp (value min max : R) : R := Rmin (Rmax value min) max.

Record Duration := mkDuration { days : Z; hours : Z; minutes : Z }.

(** [calculateDuration]: [Math.floor] of a quotient by a positive constant
    is floor division ([Z.div]); JavaScript's [%] keeps the sign of the
    dividend ([Z.rem]). Dates are integer milliseconds. *)
Definition calculateDuration (start end_ : Z) : Duration :=
  let diff := (end_ - start)%Z in
  let days := (diff / (1000 * 60 * 60 * 24))%Z in
  let hours := (Z.rem diff (1000 * 60 * 60 * 24) / (1000 * 60 * 60))%Z in
  let minutes := (Z.rem diff (1000 * 60 * 60) / (1000 * 60))%Z in
  mkDuration days hours minutes.

(** JavaScript strings as sequences of UTF-16 code units. *)
Definition JSString := list Z.

(** [String.prototype.substring(start, end)]: both indices are clamped to
    [0, length] and swapped when [start > end]. *)
Definition substring (s : JSString) (start end_ : Z) : JSString :=
  let len := Z.of_nat (List.length s) in
  let intStart := Z.min (Z.max start 0) len in
  let intEnd := Z.min (Z.max end_ 0) len in
  let from := Z.min intStart intEnd in
  let to := Z.max intStart intEnd in
  firstn (Z.to_nat (to - from)) (skipn (Z.to_nat from) s).

(** ['...'] *)
Definition ellipsis : JSString := [46; 46; 46]%Z.

(** [truncate]. *)
Definition truncate (str : JSString) (maxLength : Z) : JSString :=
  if Z.leb (Z.of_nat (List.length str)) maxLength then str
  else substring str 0 (maxLength - 3) ++ ellipsis.

(** The class [\s] of JavaScript regular expressions: the white-space and
    line-terminator code units. *)
Definition isWhiteSpace (c : Z) : bool :=
  existsb (Z.eqb c) [9; 10; 11; 12; 13; 32; 160; 5760; 8232; 8233; 8239; 8287;
                     12288; 65279]%Z ||
  (Z.leb 8192 c && Z.leb c 8202).

(** [[^\s@]] *)
Definition notSpaceOrAt (c : Z) : bool := negb (isWhiteSpace c) && negb (Z.eqb c 64).

(** [[^\s@]+] on a whole segment. *)
Definition plusNotSpaceOrAt (l : JSString) : bool :=
  match l with
  | [] => false
  | _ => forallb notSpaceOrAt l
  end.

(** All the ways to cut a string in two. *)
Fixpoint splits (l : JSString) : list (JSString * JSString) :=
  ([], l) ::
  match l with
  | [] => []
  | x :: l' => map (fun '(a, b) => (x :: a, b)) (splits l')
  end.

(** [isValidEmail]: [/^[^\s@]+@[^\s@]+\.[^\s@]+$/.test(email)]. The
    anchored pattern matches when the string can be cut as
    [a ++ '@' ++ b ++ '.' ++ c] with [a], [b] and [c] non-empty runs of
    [[^\s@]]. *)
Definition isValidEmail (email : JSString) : bool :=
  existsb (fun '(a, r) =>
    match r with
    | 64%Z :: d =>
        plusNotSpaceOrAt a &&
        existsb (fun '(b, r2) =>
          match r2 with
          | 46%Z :: c => plusNotSpaceOrAt b && plusNotSpaceOrAt c
          | _ => false
          end) (splits d)
    | _ => false
    end) (splits email).

Section Generic.

Variable A : Type.

(** SameValueZero, the equality a [Set] uses. *)
Variable eq_dec : forall x y : A, {x = y} + {x <> y}.

Definition setHas (set : list A) (x : A) : bool :=
  existsb (fun y => if eq_dec x y then true else false) set.

(** [new Set(iterable)]: adds the elements in order, skipping those already
    present; the set keeps insertion order. *)
Fixpoint setAddAll (set : list A) (l : list A) : list A :=
  match l with
  | [] => set
  | x :: l' => setAddAll (if setHas set x then set else set ++ [x]) l'
  end.

(** [unique]: [Array.from(new Set(array))]. *)
Definition unique (array : list A) : list A := setAddAll [] array.

(** Replace the element at index [n] (in range). *)
Fixpoint replaceAt (l : list A) (n : nat) (x : A) : list A :=
  match l, n with
  | [], _ => []
  | _ :: l', O => x :: l'
  | y :: l', S n' => y :: replaceAt l' n' x
  end.

(** [[shuffled[i], shuffled[j]] = [shuffled[j], shuffled[i]]]: the right-hand
    array is read first, then [shuffled[i]] and [shuffled[j]] are written.
    The indices are always in range here (see [shuffle]). *)
Definition swap (l : list A) (i j : nat) : list A :=
  match nth_error l i, nth_error l j with
  | Some vi, Some vj => replaceAt (replaceAt l i vj) j vi
  | _, _ => l
  end.

(** [shuffle] (Fisher-Yates). [random i] is the value [Math.random()]
    returns in the iteration for index [i]; [j] is
    [Math.floor(random i * (i + 1))]. The loop runs [i] from
    [length - 1] down to 1; [k] counts the iterations left. *)
Variable random : nat -> R.

Fixpoint shuffleLoop (k : nat) (shuffled : list A) : list A :=
  match k with
  | O => shuffled
  | S i =>
      (* this iteration has index [i + 1] *)
      let j := Z.to_nat (Int_part (random (S i) * INR (S i + 1))) in
      shuffleLoop i (swap shuffled (S i) j)
  end.

Definition shuffle (array : list A) : list A :=
  shuffleLoop (List.length array - 1) array.

(** [groupBy]: [array.reduce] into a fresh object literal. An absent own
    key reads through to [Object.prototype]: for the names of its
    properties ([result[key]] is then a function or, for [__proto__], the
    prototype itself) the [!result[key]] test is false and [.push] is not a
    function, so the call throws a TypeError ([None]). The object is an
    association list of the own keys. *)
Variable keyFn : A -> string.

Definition objectPrototypeKeys : list string :=
  ["constructor"; "__defineGetter__"; "__defineSetter__"; "hasOwnProperty";
   "__lookupGetter__"; "__lookupSetter__"; "isPrototypeOf";
   "propertyIsEnumerable"; "toString"; "valueOf"; "__proto__";
   "toLocaleString"]%string.

Fixpoint lookupKey (k : string) (obj : list (string * list A)) : option (list A) :=
  match obj with
  | [] => None
  | (k', v) :: obj' => if String.eqb k k' then Some v else lookupKey k obj'
  end.

Fixpoint pushAt (k : string) (item : A) (obj : list (string * list A)) :=
  match obj with
  | [] => []
  | (k', v) :: obj' =>
      if String.eqb k k' then (k', v ++ [item]) :: obj'
      else (k', v) :: pushAt k item obj'
  end.

Definition groupByStep (result : option (list (string * list A))) (item : A) :=
  match result with
  | None => None
  | Some obj =>
      let key := keyFn item in
      match lookupKey key obj with
      | Some _ => Some (pushAt key item obj)
      | None =>
          if existsb (String.eqb key) objectPrototypeKeys then None
          else Some (obj ++ [(key, [item])])
      end
  end.

Definition groupBy (array : list A) : option (list (string * list A)) :=
  fold_left groupByStep array (Some []).

End Generic.

End Helpers.

(** * Properties *)

(** ** Geolocation helpers *)

Lemma atan2_nonneg (y x : R) : 0 <= y -> 0 <= x -> 0 <= atan2 y x.
Proof.
  intros Hy Hx. unfold atan2.
  destruct (Rlt_dec 0 x) as [Hx0 | Hx0].
  - destruct Hy as [Hy | Hy].
    + rewrite <- atan_0. left. apply atan_increasing.
      apply Rdiv_pos_pos; assumption.
    + subst y. unfold Rdiv. rewrite Rmult_0_l, atan_0. lra.
  - destruct (Rlt_dec x 0) as [Hx1 | Hx1]; [lra |].
    destruct (Rlt_dec 0 y); [pose proof PI_RGT_0; lra |].
    destruct (Rlt_dec y 0); lra.
Qed.

Lemma calculateDistance_nonneg (a b : GeoPoint) : 0 <= calculateDistance a b.
Proof.
  unfold calculateDistance.
  pose proof (atan2_nonneg _ _ (sqrt_pos (sin ((latitude b - latitude a) * PI / 180 / 2) *
       sin ((latitude b - latitude a) * PI / 180 / 2) +
       cos (latitude a * PI / 180) * cos (latitude b * PI / 180) *
       sin ((longitude b - longitude a) * PI / 180 / 2) *
       sin ((longitude b - longitude a) * PI / 180 / 2)))
    (sqrt_pos (1 - (sin ((latitude b - latitude a) * PI / 180 / 2) *
       sin ((latitude b - latitude a) * PI / 180 / 2) +
       cos (latitude a * PI / 180) * cos (latitude b * PI / 180) *
       sin ((longitude b - longitude a) * PI / 180 / 2) *
       sin ((longitude b - longitude a) * PI / 180 / 2))))).
  lra.
Qed.

(** Claim C5: the speed bands of [inferActivityFromSpeed]: below 1 m/s
    stationary, [1,2) walking, [2,20) driving, [20,55) train, from 55 m/s
    flying. Stated for every real speed (the non-negativity premise of the
    claim is not needed). *)
Theorem inferActivityFromSpeed_bands (s : R) :
  (s < 1 -> inferActivityFromSpeed s = stationary) /\
  (1 <= s < 2 -> inferActivityFromSpeed s = walking) /\
  (2 <= s < 20 -> inferActivityFromSpeed s = driving) /\
  (20 <= s < 55 -> inferActivityFromSpeed s = train) /\
  (55 <= s -> inferActivityFromSpeed s = flying).
Proof.
  unfold inferActivityFromSpeed.
  destruct (Rlt_dec s 1); destruct (Rlt_dec s 2); destruct (Rlt_dec s 20);
    destruct (Rlt_dec s 55);
    refine (conj _ (conj _ (conj _ (conj _ _)))); intros;
    first [reflexivity | lra].
Qed.

(** Claim C9: [calculateSpeed a b tA tB] is the distance divided by the
    elapsed seconds when [tB > tA], 0 when [tB <= tA], and never negative. *)
Theorem calculateSpeed_spec (a b : GeoPoint) (tA tB : Z) :
  ((tA < tB)%Z ->
     calculateSpeed a b tA tB = calculateDistance a b / (IZR (tB - tA) / 1000)) /\
  ((tB <= tA)%Z -> calculateSpeed a b tA tB = 0) /\
  0 <= calculateSpeed a b tA tB.
Proof.
  unfold calculateSpeed.
  pose proof (calculateDistance_nonneg a b) as Hd.
  destruct (Rlt_dec 0 (IZR (tB - tA) / 1000)) as [Hp | Hp].
  - refine (conj _ (conj _ _)); intros.
    + reflexivity.
    + exfalso. assert (IZR (tB - tA) <= 0) by (apply IZR_le; lia). lra.
    + unfold Rdiv. apply Rmult_le_pos; [assumption |].
      left. apply Rinv_0_lt_compat. assumption.
  - refine (conj _ (conj _ _)); intros.
    + exfalso. apply Hp.
      assert (0 < IZR (tB - tA)) by (apply IZR_lt; lia). lra.
    + reflexivity.
    + lra.
Qed.

(** ** TrackerService *)

Import Tracker.

(** A tracker in the middle of a trip: active, one fix already taken and
    stored, both timers running, walking. *)
Definition sampleFix : LocationUpdate :=
  mkLocationUpdate (mkGeoPoint 48 2) 5 1000%Z.

Definition sampleRaw : RawLocation :=
  mkRawLocation 0 (Some "trip-1"%string) (mkGeoPoint 48 2) 1000%Z walking None false.

Definition activeWorld : World :=
  mkWorld active (Some "trip-1"%string) (Some sampleFix) walking
    (Some (mkTrackerConfig true (Some "trip-1"%string) 30000%Z))
    (Some 30000%Z) (Some 300000%Z) [sampleRaw] None None 1.

(** Claim C3 (counterexample): the battery level plays no part in the
    interval; below the 0.20 threshold a walking tracker still gets the
    30 s interval, not the 600 s stationary one. *)
Lemma getUpdateInterval_battery_counterexample :
  ~ (forall (batteryLevel : R) (a : ActivityType),
       batteryLevel < TRACKING_CONFIG.BATTERY_SAVER_THRESHOLD ->
       getUpdateInterval a = TRACKING_CONFIG.STATIONARY_INTERVAL).
Proof.
  intros H.
  assert (Hlow : 1 / 10 < TRACKING_CONFIG.BATTERY_SAVER_THRESHOLD)
    by (unfold TRACKING_CONFIG.BATTERY_SAVER_THRESHOLD; lra).
  specialize (H (1 / 10) walking Hlow).
  discriminate H.
Qed.

(** Claim C3 (amended): [getUpdateInterval] depends on the activity only:
    30 s for walking, driving, train and flying, 600 s for stationary
    (300 s for cycling); there is no battery-saver override. It is evaluated
    when the tracking loop is started; [startTracking] resets the activity
    to stationary first, so a successful start sets the 600 s timer. *)
Theorem getUpdateInterval_policy (w : World) (tripId : string) :
  (forall a : ActivityType,
     getUpdateInterval a =
       match a with
       | walking | driving | train | flying => 30000%Z
       | stationary => 600000%Z
       | cycling => 300000%Z
       end) /\
  (let '(r, w', _) := startTracking true tripId w in
   r = inr tt /\ trackingInterval w' = Some 600000%Z).
Proof.
  split.
  - intros []; reflexivity.
  - destruct w as [st tid ll ca cfg ti si pend sc dev uid].
    destruct cfg as [c |]; destruct ti as [p |]; destruct si as [q |];
      destruct dev as [d |]; destruct ll as [l |];
      cbn; split; reflexivity.
Qed.

(** Claim C7: when the location-permission check answers false, start
    fails with the permission error, emits no effect and leaves the whole
    service state unchanged (so a stopped tracker stays stopped with no
    trip id recorded). *)
Theorem startTracking_permission_denied (w : World) (tripId : string) :
  startTracking false tripId w = (inl LocationPermissionNotGranted, w, []).
Proof. reflexivity. Qed.

(** Claim C6 (counterexample): on an active tracker holding a last fix,
    [stopTracking] writes the stopped state before the final sync, and the
    last fix survives the stop. *)
Lemma stopTracking_counterexample :
  let '(_, w', t) := stopTracking activeWorld in
  t = [EvSetState stopped; EvClearInterval 30000%Z; EvClearInterval 300000%Z;
       EvSync [sampleRaw];
       EvSaveConfig (mkTrackerConfig false None 30000%Z)] /\
  state w' = stopped /\ currentTripId w' = None /\
  lastLocation w' = Some sampleFix /\
  ~ (lastLocation w' = None).
Proof.
  cbn. repeat split; discriminate.
Qed.

(** Claim C6 (amended): [stopTracking] first writes the stopped state (and
    clears the trip id), then cancels the running tracking and sync timers,
    then syncs the pending fixes (when there are any), and finally, when a
    config is loaded, saves it as inactive with no trip id. Afterwards no
    timer is set, the pending fixes are still in storage, and
    [lastLocation] keeps its value. *)
Theorem stopTracking_effects (w : World) :
  let '(r, w', t) := stopTracking w in
  r = inr tt /\
  state w' = stopped /\ currentTripId w' = None /\
  trackingInterval w' = None /\ syncInterval w' = None /\
  lastLocation w' = lastLocation w /\
  pendingLocations w' = pendingLocations w /\
  config w' =
    match config w with
    | Some c => Some (mkTrackerConfig false None c.(updateInterval))
    | None => None
    end /\
  savedConfig w' =
    match config w with
    | Some c => Some (mkTrackerConfig false None c.(updateInterval))
    | None => savedConfig w
    end /\
  t = EvSetState stopped ::
        match trackingInterval w with Some p => [EvClearInterval p] | None => [] end ++
        match syncInterval w with Some q => [EvClearInterval q] | None => [] end ++
        match pendingLocations w with [] => [] | p => [EvSync p] end ++
        match config w with
        | Some c => [EvSaveConfig (mkTrackerConfig false None c.(updateInterval))]
        | None => []
        end.
Proof.
  destruct w as [st tid ll ca cfg ti si pend sc dev uid].
  destruct cfg as [c |]; destruct ti as [p |]; destruct si as [q |];
    destruct pend as [| x xs]; cbn; repeat split; reflexivity.
Qed.

(** ** retryWithBackoff *)

Import Retry.

(** Calls [from .. to-1], each followed by its backoff sleep. *)
Definition backoffTrace (baseDelay : Z) (from to : nat) : list Event :=
  flat_map (fun i => [Call i; Sleep (baseDelay * 2 ^ Z.of_nat i)%Z])
    (seq from (to - from)).

Lemma backoffTrace_refl (baseDelay : Z) (i : nat) : backoffTrace baseDelay i i = [].
Proof. unfold backoffTrace. rewrite Nat.sub_diag. reflexivity. Qed.

Lemma backoffTrace_cons (baseDelay : Z) (i n : nat) :
  (i < n)%nat ->
  backoffTrace baseDelay i n =
    Call i :: Sleep (baseDelay * 2 ^ Z.of_nat i)%Z :: backoffTrace baseDelay (S i) n.
Proof.
  intros H. unfold backoffTrace.
  replace (n - i)%nat with (S (n - S i)) by lia. reflexivity.
Qed.

Lemma retryLoop_S (A Err : Type) (fn : nat -> Err + A) (maxRetries : nat)
    (baseDelay : Z) (i k : nat) (lastError : option Err) :
  retryLoop A Err fn maxRetries baseDelay i (S k) lastError =
    match fn i with
    | inr a => ([Call i], Returned a)
    | inl error =>
        let delay :=
          if Nat.ltb i (maxRetries - 1)
          then [Sleep (baseDelay * 2 ^ Z.of_nat i)%Z] else [] in
        let '(t, r) := retryLoop A Err fn maxRetries baseDelay (S i) k (Some error) in
        (Call i :: delay ++ t, r)
    end.
Proof. reflexivity. Qed.

Section RetryProofs.

Variables (A Err : Type) (n : nat) (e : nat -> Err) (a : A)
  (maxRetries : nat) (baseDelay : Z).

Lemma retryLoop_succeeds (k i : nat) (lastError : option Err) :
  (i <= n)%nat -> (n < i + k)%nat -> (i + k = maxRetries)%nat ->
  retryLoop A Err (failsThenSucceeds n e a) maxRetries baseDelay i k lastError =
    (backoffTrace baseDelay i n ++ [Call n], Returned a).
Proof.
  revert i lastError. induction k as [| k IH]; intros i lastError Hi Hn Hk.
  - lia.
  - cbn [retryLoop]. unfold failsThenSucceeds at 1.
    destruct (Nat.ltb_spec i n) as [Hlt | Hge].
    + replace (Nat.ltb i (maxRetries - 1)) with true
        by (symmetry; apply Nat.ltb_lt; lia).
      rewrite (IH (S i) (Some (e i))) by lia.
      rewrite (backoffTrace_cons baseDelay i n Hlt). reflexivity.
    + assert (i = n) by lia. subst i.
      rewrite backoffTrace_refl. reflexivity.
Qed.

Lemma retryLoop_exhausted (k i : nat) (lastError : option Err) :
  (i + S k = maxRetries)%nat -> (maxRetries <= n)%nat ->
  retryLoop A Err (failsThenSucceeds n e a) maxRetries baseDelay i (S k) lastError =
    (backoffTrace baseDelay i (i + k) ++ [Call (i + k)], Thrown (Some (e (i + k)))).
Proof.
  revert i lastError. induction k as [| k IH]; intros i lastError Hk Hn.
  - cbn [retryLoop]. unfold failsThenSucceeds at 1.
    replace (Nat.ltb i n) with true by (symmetry; apply Nat.ltb_lt; lia).
    replace (Nat.ltb i (maxRetries - 1)) with false
      by (symmetry; apply Nat.ltb_ge; lia).
    rewrite Nat.add_0_r, backoffTrace_refl. reflexivity.
  - rewrite retryLoop_S. unfold failsThenSucceeds at 1.
    replace (Nat.ltb i n) with true by (symmetry; apply Nat.ltb_lt; lia).
    replace (Nat.ltb i (maxRetries - 1)) with true
      by (symmetry; apply Nat.ltb_lt; lia).
    rewrite (IH (S i) (Some (e i))) by lia.
    replace (S i + k)%nat with (i + S k)%nat by lia.
    rewrite (backoffTrace_cons baseDelay i (i + S k)) by lia. reflexivity.
Qed.

End RetryProofs.

(** Claim C4 (counterexample): with the defaults, an operation that fails
    three times and would succeed on its fourth call is called only three
    times (two retries, after 1000 ms and 2000 ms) and the third error is
    thrown; three retries would have reached the success. *)
Lemma retryWithBackoff_three_failures_counterexample :
  retryWithBackoff_default unit nat (failsThenSucceeds 3 (fun i => i) tt) =
    ([Call 0; Sleep 1000%Z; Call 1; Sleep 2000%Z; Call 2], Thrown (Some 2%nat)) /\
  ~ (exists t, retryWithBackoff_default unit nat
                 (failsThenSucceeds 3 (fun i => i) tt) = (t, Returned tt)).
Proof.
  split.
  - vm_compute. reflexivity.
  - intros [t Ht]. vm_compute in Ht. discriminate Ht.
Qed.

(** Claim C4 (amended): [retryWithBackoff fn maxRetries baseDelay] calls
    [fn] at most [maxRetries] times in total, sleeping
    [baseDelay * 2^i] after failed call [i] only when another call follows.
    For an operation failing its first [n] calls and then succeeding with
    [a]: if [n < maxRetries] it returns [a] after the sleeps
    [baseDelay * 2^0 .. baseDelay * 2^(n-1)] (with the defaults and [n = 2]:
    1000 ms then 2000 ms); otherwise it throws the error of the last call
    [maxRetries - 1] (and with [maxRetries = 0] calls nothing and throws
    an undefined value). *)
Theorem retryWithBackoff_spec (A Err : Type) (n : nat) (e : nat -> Err) (a : A)
    (maxRetries : nat) (baseDelay : Z) :
  retryWithBackoff A Err (failsThenSucceeds n e a) maxRetries baseDelay =
    if Nat.ltb n maxRetries
    then (backoffTrace baseDelay 0 n ++ [Call n], Returned a)
    else match maxRetries with
         | O => ([], Thrown None)
         | S m => (backoffTrace baseDelay 0 m ++ [Call m], Thrown (Some (e m)))
         end.
Proof.
  unfold retryWithBackoff.
  destruct (Nat.ltb_spec n maxRetries) as [Hlt | Hge].
  - apply retryLoop_succeeds; lia.
  - destruct maxRetries as [| m].
    + reflexivity.
    + apply (retryLoop_exhausted A Err n e a (S m) baseDelay m 0 None); lia.
Qed.

(** ** Photo clustering *)

Import Curation.

(** *** Sorting by timestamp *)

Definition tsLe (x y : PhotoAnalysis) : Prop := (timestamp x <= timestamp y)%Z.

Definition sameTimestamp (t : Z) (p : PhotoAnalysis) : bool :=
  Z.eqb (timestamp p) t.

Lemma insertByTimestamp_perm (x : PhotoAnalysis) (l : list PhotoAnalysis) :
  Permutation (x :: l) (insertByTimestamp x l).
Proof.
  induction l as [| y l IH]; cbn; [reflexivity |].
  destruct (Z.leb (timestamp y) (timestamp x)); [| reflexivity].
  etransitivity; [apply perm_swap |]. constructor. exact IH.
Qed.

Lemma sortByTimestamp_perm_acc (l acc : list PhotoAnalysis) :
  Permutation (acc ++ l)
    (fold_left (fun sorted x => insertByTimestamp x sorted) l acc).
Proof.
  revert acc. induction l as [| x l IH]; intros acc; cbn.
  - rewrite app_nil_r. reflexivity.
  - rewrite <- IH. rewrite <- Permutation_middle.
    change (x :: acc ++ l) with ((x :: acc) ++ l).
    apply Permutation_app_tail. apply insertByTimestamp_perm.
Qed.

Lemma insertByTimestamp_hdrel (a x : PhotoAnalysis) (l : list PhotoAnalysis) :
  HdRel tsLe a l -> tsLe a x -> HdRel tsLe a (insertByTimestamp x l).
Proof.
  intros Hl Hx. destruct l as [| y l]; cbn.
  - constructor. exact Hx.
  - destruct (Z.leb (timestamp y) (timestamp x)); constructor;
      [inversion Hl; assumption | exact Hx].
Qed.

Lemma insertByTimestamp_sorted (x : PhotoAnalysis) (l : list PhotoAnalysis) :
  Sorted tsLe l -> Sorted tsLe (insertByTimestamp x l).
Proof.
  induction l as [| y l IH]; intros Hs; cbn.
  - repeat constructor.
  - inversion Hs as [| ? ? Hs' Hhd]; subst.
    destruct (Z.leb_spec (timestamp y) (timestamp x)) as [Hle | Hgt].
    + constructor; [apply IH; exact Hs' |].
      apply insertByTimestamp_hdrel; assumption.
    + constructor; [exact Hs |]. constructor. unfold tsLe. lia.
Qed.

Lemma sortByTimestamp_sorted_acc (l acc : list PhotoAnalysis) :
  Sorted tsLe acc ->
  Sorted tsLe (fold_left (fun sorted x => insertByTimestamp x sorted) l acc).
Proof.
  revert acc. induction l as [| x l IH]; intros acc Hs; cbn; [exact Hs |].
  apply IH. apply insertByTimestamp_sorted. exact Hs.
Qed.

Lemma tsLe_trans : Transitive tsLe.
Proof. intros x y z; unfold tsLe; lia. Qed.

Lemma insertByTimestamp_stable (t : Z) (x : PhotoAnalysis) (l : list PhotoAnalysis) :
  Sorted tsLe l ->
  filter (sameTimestamp t) (insertByTimestamp x l) =
    filter (sameTimestamp t) l ++ filter (sameTimestamp t) [x].
Proof.
  induction l as [| y l IH]; intros Hs; [reflexivity |].
  cbn [insertByTimestamp].
  destruct (Z.leb_spec (timestamp y) (timestamp x)) as [Hle | Hgt].
  - inversion Hs; subst. cbn [filter].
    destruct (sameTimestamp t y); rewrite IH by assumption; reflexivity.
  - destruct (Z.eqb_spec (timestamp x) t) as [Hx | Hx].
    + (* every photo of [y :: l] is later than [x], so none has time [t] *)
      assert (Hnone : filter (sameTimestamp t) (y :: l) = []).
      { pose proof (Sorted_extends tsLe_trans Hs) as Hext.
        assert (Hall : Forall (fun z => (timestamp x < timestamp z)%Z) (y :: l)).
        { constructor; [lia |]. eapply Forall_impl; [| exact Hext].
          unfold tsLe; intros; lia. }
        clear -Hall Hx. induction (y :: l) as [| z zs IHz]; [reflexivity |].
        inversion Hall; subst. cbn. unfold sameTimestamp at 1.
        destruct (Z.eqb_spec (timestamp z) (timestamp x)); [lia |].
        apply IHz; assumption. }
      transitivity (x :: filter (sameTimestamp t) (y :: l)).
      * cbn [filter]. unfold sameTimestamp at 1. rewrite Hx, Z.eqb_refl. reflexivity.
      * rewrite Hnone. cbn. unfold sameTimestamp. rewrite Hx, Z.eqb_refl. reflexivity.
    + transitivity (filter (sameTimestamp t) (y :: l)).
      * cbn [filter]. unfold sameTimestamp at 1.
        destruct (Z.eqb_spec (timestamp x) t); [contradiction |]. reflexivity.
      * rewrite <- (app_nil_r (filter (sameTimestamp t) (y :: l))) at 1.
        f_equal. cbn. unfold sameTimestamp.
        destruct (Z.eqb_spec (timestamp x) t); [contradiction |]. reflexivity.
Qed.

Lemma sortByTimestamp_stable_acc (t : Z) (l acc : list PhotoAnalysis) :
  Sorted tsLe acc ->
  filter (sameTimestamp t)
    (fold_left (fun sorted x => insertByTimestamp x sorted) l acc) =
  filter (sameTimestamp t) acc ++ filter (sameTimestamp t) l.
Proof.
  revert acc. induction l as [| x l IH]; intros acc Hs; cbn.
  - rewrite app_nil_r. reflexivity.
  - rewrite IH by (apply insertByTimestamp_sorted; exact Hs).
    rewrite insertByTimestamp_stable by exact Hs.
    rewrite <- app_assoc. cbn. destruct (sameTimestamp t x); reflexivity.
Qed.

(** *** The groups formed by the clustering loop *)

(** Consecutive pairs of a list. *)
Fixpoint adjacent {A : Type} (l : list A) : list (A * A) :=
  match l with
  | x :: ((y :: _) as t) => (x, y) :: adjacent t
  | _ => []
  end.

(** The photo groups the loop of [clusterPhotos] closes, without the
    [finalizeCluster] step. *)
Fixpoint groups (cur0 : PhotoAnalysis) (cur todo : list PhotoAnalysis)
    : list (list PhotoAnalysis) :=
  match todo with
  | [] => [cur0 :: cur]
  | photo :: todo' =>
      if belongsToCluster photo (last (cur0 :: cur) cur0)
      then groups cur0 (cur ++ [photo]) todo'
      else (cur0 :: cur) :: groups photo [] todo'
  end.

Lemma clusterLoop_groups (tripId : string) (todo : list PhotoAnalysis) :
  forall uuid cur0 cur clusters,
  map pc_photos (fst (clusterLoop tripId uuid cur0 cur todo clusters)) =
    map pc_photos clusters ++ map (map toMetadata) (groups cur0 cur todo).
Proof.
  induction todo as [| photo todo IH]; intros uuid cur0 cur clusters; cbn [clusterLoop groups fst map].
  - rewrite map_app. reflexivity.
  - destruct (belongsToCluster photo (last (cur0 :: cur) cur0)).
    + apply IH.
    + rewrite IH, map_app, <- app_assoc. reflexivity.
Qed.

Definition isFinalized (tripId : string) (c : PhotoCluster) : Prop :=
  exists uuid first rest, c = finalizeCluster uuid first rest tripId.

Lemma clusterLoop_finalized (tripId : string) (todo : list PhotoAnalysis) :
  forall uuid cur0 cur clusters,
  Forall (isFinalized tripId) clusters ->
  Forall (isFinalized tripId) (fst (clusterLoop tripId uuid cur0 cur todo clusters)).
Proof.
  induction todo as [| photo todo IH]; intros uuid cur0 cur clusters Hc; cbn [clusterLoop fst].
  - apply Forall_app. split; [exact Hc |].
    constructor; [do 3 eexists; reflexivity | constructor].
  - destruct (belongsToCluster photo (last (cur0 :: cur) cur0)).
    + apply IH. exact Hc.
    + apply IH. apply Forall_app. split; [exact Hc |].
      constructor; [do 3 eexists; reflexivity | constructor].
Qed.

Lemma groups_concat (todo : list PhotoAnalysis) :
  forall cur0 cur, List.concat (groups cur0 cur todo) = cur0 :: cur ++ todo.
Proof.
  induction todo as [| photo todo IH]; intros cur0 cur; cbn [groups List.concat].
  - rewrite !app_nil_r. reflexivity.
  - destruct (belongsToCluster photo (last (cur0 :: cur) cur0)).
    + rewrite IH, <- app_assoc. reflexivity.
    + cbn. rewrite IH. reflexivity.
Qed.

Lemma groups_nonempty (todo : list PhotoAnalysis) :
  forall cur0 cur, Forall (fun g => g <> []) (groups cur0 cur todo).
Proof.
  induction todo as [| photo todo IH]; intros cur0 cur; cbn [groups List.concat].
  - constructor; [discriminate | constructor].
  - destruct (belongsToCluster photo (last (cur0 :: cur) cur0)).
    + apply IH.
    + constructor; [discriminate | apply IH].
Qed.

Lemma groups_head (todo : list PhotoAnalysis) :
  forall cur0 cur, exists rest gs, groups cur0 cur todo = (cur0 :: rest) :: gs.
Proof.
  induction todo as [| photo todo IH]; intros cur0 cur; cbn [groups List.concat].
  - eexists; eexists; reflexivity.
  - destruct (belongsToCluster photo (last (cur0 :: cur) cur0)).
    + apply IH.
    + eexists; eexists; reflexivity.
Qed.

Lemma last_cons_default {A : Type} (y : A) (l : list A) (d d' : A) :
  last (y :: l) d = last (y :: l) d'.
Proof.
  revert y. induction l as [| z l IH]; intros y; [reflexivity |].
  exact (IH z).
Qed.

Lemma adjacent_snoc {A : Type} (x : A) (l : list A) (p : A) :
  adjacent (x :: l ++ [p]) = adjacent (x :: l) ++ [(last (x :: l) x, p)].
Proof.
  revert x. induction l as [| y l IH]; intros x; [reflexivity |].
  transitivity ((x, y) :: adjacent (y :: l ++ [p])); [reflexivity |].
  rewrite IH.
  transitivity ((x, y) :: adjacent (y :: l) ++ [(last (y :: l) y, p)]);
    [reflexivity |].
  rewrite (last_cons_default y l y x). reflexivity.
Qed.

Lemma hd_error_rev_last {A : Type} (x : A) (l : list A) :
  hd_error (rev (x :: l)) = Some (last (x :: l) x).
Proof.
  revert x. induction l as [| y l IH]; intros x; [reflexivity |].
  change (rev (x :: y :: l)) with (rev (y :: l) ++ [x]).
  destruct (rev (y :: l)) as [| z zs] eqn:E.
  - apply (f_equal (@length A)) in E. rewrite length_rev in E. discriminate E.
  - cbn [app hd_error]. specialize (IH y). rewrite E in IH. cbn [hd_error] in IH.
    rewrite IH. change (last (x :: y :: l) x) with (last (y :: l) x).
    f_equal. apply last_cons_default.
Qed.

(** Every photo of a group passed the membership test against the photo
    before it. *)
Lemma groups_within (todo : list PhotoAnalysis) :
  forall cur0 cur,
  Forall (fun '(x, y) => belongsToCluster y x = true) (adjacent (cur0 :: cur)) ->
  Forall (fun g => Forall (fun '(x, y) => belongsToCluster y x = true) (adjacent g))
    (groups cur0 cur todo).
Proof.
  induction todo as [| photo todo IH]; intros cur0 cur Hcur; cbn [groups].
  - constructor; [exact Hcur | constructor].
  - destruct (belongsToCluster photo (last (cur0 :: cur) cur0)) eqn:Hb.
    + apply IH. rewrite adjacent_snoc. apply Forall_app.
      split; [exact Hcur |]. constructor; [exact Hb | constructor].
    + constructor; [exact Hcur |]. apply IH. constructor.
Qed.

(** Between two consecutive groups the first photo of the second failed
    the membership test against the last photo of the first. *)
Lemma groups_boundary (todo : list PhotoAnalysis) :
  forall cur0 cur,
  Forall (fun '(g1, g2) => forall x y, hd_error (rev g1) = Some x ->
            hd_error g2 = Some y -> belongsToCluster y x = false)
    (adjacent (groups cur0 cur todo)).
Proof.
  induction todo as [| photo todo IH]; intros cur0 cur; cbn [groups List.concat].
  - constructor.
  - destruct (belongsToCluster photo (last (cur0 :: cur) cur0)) eqn:Hb.
    + apply IH.
    + destruct (groups_head todo photo []) as (rest & gs & Hg).
      specialize (IH photo []). rewrite Hg in IH |- *.
      change (adjacent ((cur0 :: cur) :: (photo :: rest) :: gs)) with
        (((cur0 :: cur), (photo :: rest)) :: adjacent ((photo :: rest) :: gs)).
      constructor; [| exact IH].
      intros x y Hx Hy. rewrite hd_error_rev_last in Hx.
      injection Hx as <-. injection Hy as <-. exact Hb.
Qed.

(** *** Clustering, stated on the clusters' photos *)

(** The join test as the specification words it: [photo] joins the cluster
    whose last photo is [lastPhoto] when it is at most one hour later and,
    if both carry a location, at most 200 m away. *)
Definition joins_spec (lastPhoto photo : PhotoMetadata) : Prop :=
  (md_timestamp photo - md_timestamp lastPhoto <= 3600000)%Z /\
  (forall a b, md_location photo = Some a -> md_location lastPhoto = Some b ->
     calculateDistance a b <= 200).

Lemma belongsToCluster_joins (x y : PhotoAnalysis) :
  belongsToCluster y x = true <-> joins_spec (toMetadata x) (toMetadata y).
Proof.
  unfold belongsToCluster, joins_spec, toMetadata; cbn.
  unfold CURATION_CONFIG.TIME_CLUSTER_WINDOW, CURATION_CONFIG.LOCATION_CLUSTER_RADIUS.
  rewrite andb_true_iff, Z.leb_le.
  destruct (location y) as [a |]; destruct (location x) as [b |];
    [destruct (Rle_dec (calculateDistance a b) 200) as [Hd | Hd] | | |];
    split; intros [Ht Hl]; split; try assumption; try reflexivity;
    try discriminate; try (intros ? ? Ha Hb; discriminate).
  - intros a' b' Ha Hb. injection Ha as <-. injection Hb as <-. exact Hd.
  - exfalso. apply Hd. apply Hl; reflexivity.
Qed.

Lemma adjacent_map {A B : Type} (f : A -> B) (l : list A) :
  adjacent (map f l) = map (fun '(x, y) => (f x, f y)) (adjacent l).
Proof.
  induction l as [| x l IH]; [reflexivity |].
  destruct l as [| y l]; [reflexivity |].
  transitivity ((f x, f y) :: adjacent (map f (y :: l))); [reflexivity |].
  rewrite IH. reflexivity.
Qed.

Lemma hd_error_map' {A B : Type} (f : A -> B) (l : list A) :
  hd_error (map f l) = option_map f (hd_error l).
Proof. destruct l; reflexivity. Qed.

(** Claim C1: the clusters returned by [clusterPhotos] are the runs of the
    timestamp-sorted input formed by comparing each photo with the last
    photo of the current cluster: every cluster is non-empty; their
    photos, concatenated, are the sorted input (every photo is walked and the last cluster is emitted);
    inside a cluster every photo passed the join test (time difference at
    most 3,600,000 ms and, when both photos carry a location, distance at
    most 200 m) against the photo before it; and the first photo of every
    cluster after the first failed that test against the last photo of the
    cluster before it. *)
Theorem clusterPhotos_chaining (uuid : nat) (photos : list PhotoAnalysis)
    (tripId : string) :
  let gs := map pc_photos (fst (clusterPhotos uuid photos tripId)) in
  Forall (fun g => g <> []) gs /\
  List.concat gs = map toMetadata (sortByTimestamp photos) /\
  Forall (fun g => Forall (fun '(x, y) => joins_spec x y) (adjacent g)) gs /\
  Forall (fun '(g1, g2) => forall x y, hd_error (rev g1) = Some x ->
            hd_error g2 = Some y -> ~ joins_spec x y) (adjacent gs).
Proof.
  cbv zeta. unfold clusterPhotos.
  destruct (sortByTimestamp photos) as [| first rest].
  - cbn. repeat constructor.
  - rewrite clusterLoop_groups. cbn [map app].
    split; [| split; [| split]].
    + rewrite Forall_map. eapply Forall_impl; [| apply groups_nonempty].
      intros g Hg Hm. apply Hg. destruct g; [reflexivity | discriminate Hm].
    + rewrite <- concat_map, groups_concat. reflexivity.
    + pose proof (groups_within rest first [] (Forall_nil _)) as Hw.
      rewrite Forall_map. eapply Forall_impl; [| exact Hw].
      intros g Hg. rewrite adjacent_map, Forall_map.
      eapply Forall_impl; [| exact Hg].
      intros [x y] Hb. apply belongsToCluster_joins. exact Hb.
    + pose proof (groups_boundary rest first []) as Hb.
      rewrite adjacent_map, Forall_map. eapply Forall_impl; [| exact Hb].
      intros [g1 g2] H x y Hx Hy Hj.
      rewrite <- map_rev, hd_error_map' in Hx. rewrite hd_error_map' in Hy.
      destruct (hd_error (rev g1)) as [x' |] eqn:Ex; [| discriminate Hx].
      destruct (hd_error g2) as [y' |] eqn:Ey; [| discriminate Hy].
      injection Hx as <-. injection Hy as <-.
      apply belongsToCluster_joins in Hj.
      rewrite (H x' y' eq_refl eq_refl) in Hj. discriminate Hj.
Qed.

(** Claim C10: the clusters partition the input: every cluster is
    non-empty; the clusters' photos, concatenated in emission order, are
    exactly the input sorted by timestamp, where the sort is a permutation
    of the input, ascending, and keeps the input order of photos with equal
    timestamps; an empty input gives no cluster and a single photo gives one
    cluster holding it. *)
Theorem clusterPhotos_partition (uuid : nat) (photos : list PhotoAnalysis)
    (tripId : string) :
  let gs := map pc_photos (fst (clusterPhotos uuid photos tripId)) in
  Forall (fun g => g <> []) gs /\
  List.concat gs = map toMetadata (sortByTimestamp photos) /\
  Permutation photos (sortByTimestamp photos) /\
  Sorted tsLe (sortByTimestamp photos) /\
  (forall t, filter (sameTimestamp t) (sortByTimestamp photos) =
             filter (sameTimestamp t) photos) /\
  fst (clusterPhotos uuid [] tripId) = [] /\
  (forall p, map pc_photos (fst (clusterPhotos uuid [p] tripId)) = [[toMetadata p]]).
Proof.
  cbv zeta.
  refine (conj _ (conj _ (conj _ (conj _ (conj _ (conj _ _)))))).
  - unfold clusterPhotos. destruct (sortByTimestamp photos) as [| first rest].
    + constructor.
    + rewrite clusterLoop_groups. cbn [map app]. rewrite Forall_map.
      eapply Forall_impl; [| apply groups_nonempty].
      intros g Hg Hm. apply Hg. destruct g; [reflexivity | discriminate Hm].
  - unfold clusterPhotos. destruct (sortByTimestamp photos) as [| first rest].
    + reflexivity.
    + rewrite clusterLoop_groups. cbn [map app].
      rewrite <- concat_map, groups_concat. reflexivity.
  - apply (sortByTimestamp_perm_acc photos []).
  - apply sortByTimestamp_sorted_acc. constructor.
  - intros t. unfold sortByTimestamp.
    rewrite sortByTimestamp_stable_acc by constructor. reflexivity.
  - reflexivity.
  - intros p. reflexivity.
Qed.

(** *** Cluster summary fields *)

(** The locations carried by a cluster's photos, in order. *)
Definition locationsOf (ms : list PhotoMetadata) : list GeoPoint :=
  flat_map (fun m => match md_location m with Some g => [g] | None => [] end) ms.

(** The center the specification describes: the arithmetic mean of the
    latitudes and of the longitudes of the photos carrying a location, or
    [{0, 0}] when none does. *)
Definition centerSpec (ms : list PhotoMetadata) : GeoPoint :=
  match locationsOf ms with
  | [] => mkGeoPoint 0 0
  | locs => mkGeoPoint (fold_right Rplus 0 (map latitude locs) / INR (List.length locs))
                       (fold_right Rplus 0 (map longitude locs) / INR (List.length locs))
  end.

Definition locationsOfPhotos (ps : list PhotoAnalysis) : list GeoPoint :=
  flat_map (fun p => match location p with Some g => [g] | None => [] end) ps.

Lemma locationsOf_toMetadata (ps : list PhotoAnalysis) :
  locationsOf (map toMetadata ps) = locationsOfPhotos ps.
Proof.
  unfold locationsOf, locationsOfPhotos.
  induction ps as [| p ps IH]; [reflexivity |].
  cbn [map flat_map]. rewrite IH. reflexivity.
Qed.

Lemma photosWithLocation_locations (ps : list PhotoAnalysis) :
  locationsOfPhotos (photosWithLocation ps) = locationsOfPhotos ps /\
  List.length (photosWithLocation ps) = List.length (locationsOfPhotos ps).
Proof.
  unfold photosWithLocation, locationsOfPhotos.
  induction ps as [| p ps [IH1 IH2]]; [split; reflexivity |].
  cbn [filter flat_map].
  destruct (location p) as [g |] eqn:Hl; cbn [flat_map app List.length].
  - rewrite Hl. cbn [app]. rewrite IH1, IH2. split; reflexivity.
  - split; assumption.
Qed.

Lemma fold_left_location_sum (sel : GeoPoint -> R) (ps : list PhotoAnalysis) (s : R) :
  fold_left (fun sum p => match location p with
                          | Some g => sum + sel g
                          | None => sum end) ps s =
  s + fold_right Rplus 0 (map sel (locationsOfPhotos ps)).
Proof.
  unfold locationsOfPhotos. revert s.
  induction ps as [| p ps IH]; intros s; cbn [fold_left flat_map]; [cbn; lra |].
  rewrite IH. destruct (location p); cbn [app map fold_right]; lra.
Qed.

Lemma sumLatitude_spec (ps : list PhotoAnalysis) :
  sumLatitude ps = fold_right Rplus 0 (map latitude (locationsOfPhotos ps)).
Proof.
  unfold sumLatitude. rewrite (fold_left_location_sum latitude). lra.
Qed.

Lemma sumLongitude_spec (ps : list PhotoAnalysis) :
  sumLongitude ps = fold_right Rplus 0 (map longitude (locationsOfPhotos ps)).
Proof.
  unfold sumLongitude. rewrite (fold_left_location_sum longitude). lra.
Qed.

Lemma last_map' {A B : Type} (f : A -> B) (x : A) (l : list A) :
  last (map f (x :: l)) (f x) = f (last (x :: l) x).
Proof.
  revert x. induction l as [| y l IH]; intros x; [reflexivity |].
  transitivity (last (f y :: map f l) (f x)); [reflexivity |].
  rewrite (last_cons_default (f y) (map f l) (f x) (f y)).
  change (f y :: map f l) with (map f (y :: l)).
  rewrite IH. f_equal. change (last (x :: y :: l) x) with (last (y :: l) x).
  apply last_cons_default.
Qed.

Lemma finalizeCluster_spec (uuid : nat) (first : PhotoAnalysis)
    (rest : list PhotoAnalysis) (tripId : string) :
  let c := finalizeCluster uuid first rest tripId in
  exists m ms, pc_photos c = m :: ms /\
    startTime c = md_timestamp m /\
    endTime c = md_timestamp (last (m :: ms) m) /\
    centerLocation c = centerSpec (pc_photos c).
Proof.
  cbv zeta. exists (toMetadata first), (map toMetadata rest).
  refine (conj eq_refl (conj eq_refl (conj _ _))).
  - change (toMetadata first :: map toMetadata rest) with (map toMetadata (first :: rest)).
    rewrite last_map'. reflexivity.
  - unfold finalizeCluster, centerSpec. cbn [pc_photos centerLocation].
    rewrite locationsOf_toMetadata.
    destruct (photosWithLocation_locations (first :: rest)) as [H1 H2].
    rewrite sumLatitude_spec, sumLongitude_spec, H1, H2.
    destruct (photosWithLocation (first :: rest)) as [| q qs];
      destruct (locationsOfPhotos (first :: rest)) as [| g gs];
      try discriminate H2; reflexivity.
Qed.

(** Claim C2: every cluster [clusterPhotos] returns has photos, its
    [startTime] is the timestamp of its first photo, its [endTime] the
    timestamp of its last photo, and its [centerLocation] the mean latitude
    and longitude of exactly its photos that carry a location, or [{0, 0}]
    when none does. *)
Theorem clusterPhotos_cluster_fields (uuid : nat) (photos : list PhotoAnalysis)
    (tripId : string) :
  Forall (fun c => exists m ms, pc_photos c = m :: ms /\
            startTime c = md_timestamp m /\
            endTime c = md_timestamp (last (m :: ms) m) /\
            centerLocation c = centerSpec (pc_photos c))
    (fst (clusterPhotos uuid photos tripId)).
Proof.
  assert (Hf : Forall (isFinalized tripId) (fst (clusterPhotos uuid photos tripId))).
  { unfold clusterPhotos. destruct (sortByTimestamp photos) as [| first rest].
    - constructor.
    - apply clusterLoop_finalized. constructor. }
  eapply Forall_impl; [| exact Hf].
  intros c (u & first & rest & ->). apply finalizeCluster_spec.
Qed.

(** *** The examples of the specification, evaluated *)

Definition photoAt (name : string) (minutes : Z) : PhotoAnalysis :=
  mkPhotoAnalysis name false 0 (9 / 10) (minutes * 60000)%Z None 4032 3024.

(** Photos at 0, 30 and 65 minutes without locations chain into one
    cluster; a photo at 200 minutes starts a new one. *)
Example clusterPhotos_time_chain :
  map (map md_nativeId)
    (map pc_photos (fst (clusterPhotos 0
       [photoAt "c" 65; photoAt "d" 200; photoAt "a" 0; photoAt "b" 30] "trip"))) =
  [["a"; "b"; "c"]; ["d"]]%string.
Proof. vm_compute. reflexivity. Qed.

(** * Further properties of the modelled code *)

(** ** Haversine distance *)

(** The quantity [a] of [calculateDistance]. *)
Definition haversineA (point1 point2 : GeoPoint) : R :=
  let phi1 := latitude point1 * PI / 180 in
  let phi2 := latitude point2 * PI / 180 in
  let dphi := (latitude point2 - latitude point1) * PI / 180 in
  let dlambda := (longitude point2 - longitude point1) * PI / 180 in
  sin (dphi / 2) * sin (dphi / 2) +
  cos phi1 * cos phi2 * sin (dlambda / 2) * sin (dlambda / 2).

Lemma calculateDistance_haversineA (point1 point2 : GeoPoint) :
  calculateDistance point1 point2 =
    6371 * 1000 * (2 * atan2 (sqrt (haversineA point1 point2))
                             (sqrt (1 - haversineA point1 point2))).
Proof. reflexivity. Qed.

Lemma haversineA_sym (p q : GeoPoint) : haversineA p q = haversineA q p.
Proof.
  unfold haversineA.
  replace ((latitude p - latitude q) * PI / 180 / 2)
    with (- ((latitude q - latitude p) * PI / 180 / 2)) by field.
  replace ((longitude p - longitude q) * PI / 180 / 2)
    with (- ((longitude q - longitude p) * PI / 180 / 2)) by field.
  rewrite !sin_neg. ring.
Qed.




(** The distance is symmetric in its two points. *)
Theorem calculateDistance_sym (p q : GeoPoint) :
  calculateDistance p q = calculateDistance q p.
Proof.
  rewrite !calculateDistance_haversineA, haversineA_sym. reflexivity.
Qed.

(** The distance from a point to itself is 0. *)
Theorem calculateDistance_self (p : GeoPoint) : calculateDistance p p = 0.
Proof.
  rewrite calculateDistance_haversineA.
  assert (H0 : haversineA p p = 0).
  { unfold haversineA. rewrite !Rminus_diag.
    replace (0 * PI / 180 / 2) with 0 by field. rewrite sin_0. ring. }
  rewrite H0, sqrt_0, Rminus_0_r, sqrt_1.
  unfold atan2. destruct (Rlt_dec 0 1); [| lra].
  unfold Rdiv. rewrite Rmult_0_l, atan_0. ring.
Qed.





(** ** Numeric and string helpers *)

Import Helpers.

(** [clamp value min max] is [value] limited to [[min, max]] when
    [min <= max]; when [min > max] it always returns [max], even for values
    below [min]. *)
Theorem clamp_cases (value lo hi : R) :
  clamp value lo hi =
    if Rle_dec lo hi then
      (if Rlt_dec value lo then lo else if Rlt_dec hi value then hi else value)
    else hi.
Proof.
  unfold clamp, Rmax, Rmin.
  destruct (Rle_dec value lo); destruct (Rle_dec lo hi); destruct (Rlt_dec value lo);
    try destruct (Rlt_dec hi value);
    repeat match goal with |- context [Rle_dec ?a ?b] => destruct (Rle_dec a b) end;
    repeat match goal with H : ~ (_ <= _) |- _ => apply Rnot_le_lt in H end;
    repeat match goal with H : ~ (_ < _) |- _ => apply Rnot_lt_le in H end;
    lra.
Qed.

(** For a non-negative span, [calculateDuration] splits it into whole days,
    the remaining whole hours (0 to 23) and the remaining whole minutes
    (0 to 59); the three together account for the span up to less than a
    minute. *)
Theorem calculateDuration_decomposition (start end_ : Z) :
  (start <= end_)%Z ->
  let d := calculateDuration start end_ in
  (0 <= days d)%Z /\ (0 <= hours d < 24)%Z /\ (0 <= minutes d < 60)%Z /\
  (days d * 86400000 + hours d * 3600000 + minutes d * 60000 <= end_ - start <
   days d * 86400000 + hours d * 3600000 + minutes d * 60000 + 60000)%Z.
Proof.
  intros Hle. cbv zeta. unfold calculateDuration; cbn [days hours minutes].
  set (diff := (end_ - start)%Z).
  assert (Hd : (0 <= diff)%Z) by (unfold diff; lia).
  replace (1000 * 60 * 60 * 24)%Z with 86400000%Z by reflexivity.
  replace (1000 * 60 * 60)%Z with 3600000%Z by reflexivity.
  replace (1000 * 60)%Z with 60000%Z by reflexivity.
  rewrite !Z.rem_mod_nonneg by lia.
  pose proof (Z.div_mod diff 86400000 ltac:(lia)) as E1.
  pose proof (Z.mod_pos_bound diff 86400000 ltac:(lia)) as B1.
  set (r1 := (diff mod 86400000)%Z) in *.
  set (dy := (diff / 86400000)%Z) in *.
  pose proof (Z.div_mod r1 3600000 ltac:(lia)) as E2.
  pose proof (Z.mod_pos_bound r1 3600000 ltac:(lia)) as B2.
  set (hr := (r1 / 3600000)%Z) in *.
  assert (Hm : (diff mod 3600000 = r1 mod 3600000)%Z).
  { symmetry. apply (Z.mod_unique diff 3600000 (24 * dy + hr)); lia. }
  rewrite Hm.
  set (r2 := (r1 mod 3600000)%Z) in *.
  pose proof (Z.div_mod r2 60000 ltac:(lia)) as E3.
  pose proof (Z.mod_pos_bound r2 60000 ltac:(lia)) as B3.
  set (mn := (r2 / 60000)%Z) in *.
  assert (0 <= dy)%Z by (apply Z.div_pos; lia).
  assert (0 <= hr)%Z by (apply Z.div_pos; lia).
  assert (0 <= mn)%Z by (apply Z.div_pos; lia).
  repeat split; lia.
Qed.

Lemma calculateDuration_decomposition_witness :
  (0 <= 90061000)%Z /\
  let d := calculateDuration 0 90061000 in
  (0 <= days d)%Z /\ (0 <= hours d < 24)%Z /\ (0 <= minutes d < 60)%Z /\
  (days d * 86400000 + hours d * 3600000 + minutes d * 60000 <= 90061000 - 0 <
   days d * 86400000 + hours d * 3600000 + minutes d * 60000 + 60000)%Z.
Proof.
  split; [lia |]. exact (calculateDuration_decomposition 0 90061000 ltac:(lia)).
Defined.

Lemma substring_0 (s : JSString) (e : Z) :
  substring s 0 e = firstn (Z.to_nat (Z.min (Z.max e 0) (Z.of_nat (List.length s)))) s.
Proof.
  unfold substring.
  replace (Z.min (Z.max 0 0) (Z.of_nat (List.length s))) with 0%Z by lia.
  replace (Z.min 0 (Z.min (Z.max e 0) (Z.of_nat (List.length s)))) with 0%Z by lia.
  replace (Z.max 0 (Z.min (Z.max e 0) (Z.of_nat (List.length s))))
    with (Z.min (Z.max e 0) (Z.of_nat (List.length s))) by lia.
  rewrite Z.sub_0_r. reflexivity.
Qed.

(** With a limit of at least 3, [truncate] returns the string itself when
    it fits, and otherwise its first [maxLength - 3] code units followed by
    ['...']; either way the result is at most [maxLength] long. *)
Theorem truncate_fits (str : JSString) (maxLength : Z) :
  (3 <= maxLength)%Z ->
  (Z.of_nat (List.length (truncate str maxLength)) <= maxLength)%Z /\
  ((Z.of_nat (List.length str) <= maxLength)%Z -> truncate str maxLength = str) /\
  ((maxLength < Z.of_nat (List.length str))%Z ->
     truncate str maxLength = firstn (Z.to_nat (maxLength - 3)) str ++ ellipsis).
Proof.
  intros Hm. unfold truncate.
  destruct (Z.leb_spec (Z.of_nat (List.length str)) maxLength) as [Hle | Hgt].
  - refine (conj _ (conj _ _)); intros; [lia | reflexivity | lia].
  - rewrite substring_0.
    replace (Z.min (Z.max (maxLength - 3) 0) (Z.of_nat (List.length str)))
      with (maxLength - 3)%Z by lia.
    refine (conj _ (conj _ _)); intros; [| lia | reflexivity].
    rewrite length_app, length_firstn. cbn [List.length ellipsis]. lia.
Qed.

Lemma truncate_fits_witness :
  (3 <= 5)%Z /\
  (Z.of_nat (List.length (truncate [104; 101; 108; 108; 111; 33]%Z 5)) <= 5)%Z /\
  ((Z.of_nat (List.length [104; 101; 108; 108; 111; 33]%Z) <= 5)%Z ->
     truncate [104; 101; 108; 108; 111; 33]%Z 5 = [104; 101; 108; 108; 111; 33]%Z) /\
  ((5 < Z.of_nat (List.length [104; 101; 108; 108; 111; 33]%Z))%Z ->
     truncate [104; 101; 108; 108; 111; 33]%Z 5 =
       firstn (Z.to_nat (5 - 3)) [104; 101; 108; 108; 111; 33]%Z ++ ellipsis).
Proof.
  split; [lia |]. exact (truncate_fits [104; 101; 108; 108; 111; 33]%Z 5 ltac:(lia)).
Defined.

(** With a limit below 3, a string longer than the limit becomes ['...'],
    which is longer than the limit. *)
Theorem truncate_small_limit (str : JSString) (maxLength : Z) :
  (maxLength < 3)%Z -> (maxLength < Z.of_nat (List.length str))%Z ->
  truncate str maxLength = ellipsis.
Proof.
  intros Hm Hlen. unfold truncate.
  destruct (Z.leb_spec (Z.of_nat (List.length str)) maxLength); [lia |].
  rewrite substring_0.
  replace (Z.min (Z.max (maxLength - 3) 0) (Z.of_nat (List.length str))) with 0%Z
    by lia.
  reflexivity.
Qed.

Lemma truncate_small_limit_witness :
  (2 < 3)%Z /\ (2 < Z.of_nat (List.length [97; 98; 99]%Z))%Z /\
  truncate [97; 98; 99]%Z 2 = ellipsis.
Proof.
  split; [lia |]. split; [cbn; lia |].
  exact (truncate_small_limit [97; 98; 99]%Z 2 ltac:(lia) ltac:(cbn; lia)).
Defined.

(** ** [unique], [shuffle] and [groupBy] *)

Section GenericProofs.

Context {A : Type}.

Section UniqueProofs.

Variable eq_dec : forall x y : A, {x = y} + {x <> y}.

Lemma setHas_In (set : list A) (x : A) : setHas A eq_dec set x = true <-> In x set.
Proof.
  unfold setHas. rewrite existsb_exists. split.
  - intros (y & Hy & Heq). destruct (eq_dec x y); [subst; assumption | discriminate].
  - intros H. exists x. split; [assumption |]. destruct (eq_dec x x); congruence.
Qed.

Lemma NoDup_snoc (l : list A) (a : A) : NoDup l -> ~ In a l -> NoDup (l ++ [a]).
Proof.
  intros Hl Ha. apply (Permutation_NoDup (l := a :: l)).
  - apply Permutation_cons_append.
  - constructor; assumption.
Qed.

Lemma setAddAll_NoDup (l set : list A) : NoDup set -> NoDup (setAddAll A eq_dec set l).
Proof.
  revert set. induction l as [| x l IH]; intros set Hs; cbn; [assumption |].
  apply IH. destruct (setHas A eq_dec set x) eqn:E; [assumption |].
  apply NoDup_snoc; [assumption |]. intros Hin. apply setHas_In in Hin. congruence.
Qed.

Lemma setAddAll_In (l set : list A) (x : A) :
  In x (setAddAll A eq_dec set l) <-> In x set \/ In x l.
Proof.
  revert set. induction l as [| y l IH]; intros set; cbn.
  - tauto.
  - rewrite IH. destruct (setHas A eq_dec set y) eqn:E.
    + apply setHas_In in E. split; [tauto |].
      intros [H | [H | H]]; [tauto | subst; tauto | tauto].
    + rewrite in_app_iff. cbn. tauto.
Qed.

Lemma setAddAll_app (l set : list A) :
  NoDup (set ++ l) -> setAddAll A eq_dec set l = set ++ l.
Proof.
  revert set. induction l as [| x l IH]; intros set H; cbn.
  - rewrite app_nil_r. reflexivity.
  - destruct (setHas A eq_dec set x) eqn:E.
    + apply setHas_In in E. apply NoDup_remove_2 in H.
      exfalso. apply H. apply in_or_app. left. assumption.
    + rewrite IH; [rewrite <- app_assoc; reflexivity |].
      rewrite <- app_assoc. assumption.
Qed.

(** [unique] returns a duplicate-free list with exactly the elements of its
    input, and returns a duplicate-free input unchanged (same order). *)
Theorem unique_spec (array : list A) :
  NoDup (unique A eq_dec array) /\
  (forall x, In x (unique A eq_dec array) <-> In x array) /\
  (NoDup array -> unique A eq_dec array = array).
Proof.
  unfold unique. refine (conj _ (conj _ _)).
  - apply setAddAll_NoDup. constructor.
  - intros x. rewrite setAddAll_In. cbn. tauto.
  - intros H. apply setAddAll_app. exact H.
Qed.

End UniqueProofs.

Lemma replaceAt_length (l : list A) (n : nat) (x : A) :
  List.length (replaceAt A l n x) = List.length l.
Proof.
  revert n. induction l as [| y l IH]; intros [| n]; cbn; auto.
Qed.

Lemma nth_error_replaceAt_same (l : list A) (n : nat) (x y : A) :
  nth_error l n = Some y -> nth_error (replaceAt A l n x) n = Some x.
Proof.
  revert n. induction l as [| z l IH]; intros [| n] H; cbn in *; try discriminate; auto.
Qed.

Lemma nth_error_replaceAt_other (l : list A) (n m : nat) (x : A) :
  n <> m -> nth_error (replaceAt A l n x) m = nth_error l m.
Proof.
  revert n m. induction l as [| z l IH]; intros [| n] [| m] H; cbn; auto; try lia.
Qed.

Lemma replaceAt_perm (l : list A) (n : nat) (x y : A) :
  nth_error l n = Some y -> Permutation (x :: l) (y :: replaceAt A l n x).
Proof.
  revert n. induction l as [| z l IH]; intros [| n] H; cbn in *; try discriminate.
  - injection H as <-. apply perm_swap.
  - specialize (IH n H).
    transitivity (z :: x :: l); [apply perm_swap |].
    transitivity (z :: y :: replaceAt A l n x); [constructor; exact IH | apply perm_swap].
Qed.

Lemma swap_perm (l : list A) (i j : nat) : Permutation l (swap A l i j).
Proof.
  unfold swap.
  destruct (nth_error l i) as [vi |] eqn:Ei; [| reflexivity].
  destruct (nth_error l j) as [vj |] eqn:Ej; [| reflexivity].
  assert (E1 : nth_error (replaceAt A l i vj) j = Some vj).
  { destruct (Nat.eq_dec i j) as [<- | Hne].
    - apply (nth_error_replaceAt_same l i vj vi Ei).
    - rewrite nth_error_replaceAt_other by exact Hne. exact Ej. }
  pose proof (replaceAt_perm l i vj vi Ei) as P1.
  pose proof (replaceAt_perm (replaceAt A l i vj) j vi vj E1) as P2.
  apply (Permutation_cons_inv (a := vj)).
  transitivity (vi :: replaceAt A l i vj); assumption.
Qed.

Lemma shuffleLoop_perm (random : nat -> R) (k : nat) (l : list A) :
  Permutation l (shuffleLoop A random k l).
Proof.
  revert l. induction k as [| k IH]; intros l; cbn; [reflexivity |].
  etransitivity; [apply swap_perm | apply IH].
Qed.

Lemma shuffle_index_bound (r : R) (i : nat) :
  0 <= r < 1 -> (Z.to_nat (Int_part (r * INR (i + 1))) <= i)%nat.
Proof.
  intros Hr.
  set (x := r * INR (i + 1)).
  assert (Hpos : 0 <= INR (i + 1)) by apply pos_INR.
  assert (Hx0 : 0 <= x) by (unfold x; apply Rmult_le_pos; lra).
  assert (Hx1 : x <= INR (i + 1)).
  { unfold x. rewrite <- (Rmult_1_l (INR (i + 1))) at 2.
    apply Rmult_le_compat_r; lra. }
  assert (Hx2 : x < INR (i + 1)).
  { unfold x. rewrite <- (Rmult_1_l (INR (i + 1))) at 2.
    apply Rmult_lt_compat_r; [| lra].
    rewrite plus_INR. simpl. pose proof (pos_INR i). lra. }
  destruct (base_Int_part x) as [B1 B2].
  rewrite INR_IZR_INZ in Hx2.
  assert (Hlt : (Int_part x < Z.of_nat (i + 1))%Z) by (apply lt_IZR; lra).
  assert (Hge : (-1 < Int_part x)%Z) by (apply lt_IZR; lra).
  lia.
Qed.

(** When every [Math.random()] value lies in [[0, 1)], each index [j]
    drawn by [shuffle] for index [i] is at most [i] (so both swapped indices
    are in range), and the result is a permutation of the input. *)
Theorem shuffle_permutation (random : nat -> R) (array : list A) :
  (forall i, 0 <= random i < 1) ->
  Permutation array (shuffle A random array) /\
  (forall i, (1 <= i < List.length array)%nat ->
     (Z.to_nat (Int_part (random i * INR (i + 1))) <= i)%nat).
Proof.
  intros Hr. split.
  - apply shuffleLoop_perm.
  - intros i _. apply shuffle_index_bound. apply Hr.
Qed.

End GenericProofs.

Lemma shuffle_permutation_witness :
  (forall i : nat, 0 <= (fun _ : nat => 0%R) i < 1) /\
  Permutation [1; 2; 3]%nat (shuffle nat (fun _ : nat => 0%R) [1; 2; 3]%nat) /\
  (forall i, (1 <= i < List.length [1; 2; 3]%nat)%nat ->
     (Z.to_nat (Int_part ((fun _ : nat => 0%R) i * INR (i + 1))) <= i)%nat).
Proof.
  assert (H : forall i : nat, 0 <= (fun _ : nat => 0%R) i < 1) by (intros; lra).
  split; [exact H |]. exact (shuffle_permutation (fun _ : nat => 0%R) [1; 2; 3]%nat H).
Defined.

Section GroupByProofs.

Context {A : Type}.
Variable keyFn : A -> string.

Definition isPrototypeKey (k : string) : bool :=
  existsb (String.eqb k) objectPrototypeKeys.

Definition hasKey (k : string) (x : A) : bool := String.eqb (keyFn x) k.

Lemma lookupKey_pushAt (k k' : string) (x : A) (obj : list (string * list A)) :
  lookupKey A k (pushAt A k' x obj) =
    if String.eqb k k' then option_map (fun v => v ++ [x]) (lookupKey A k obj)
    else lookupKey A k obj.
Proof.
  induction obj as [| [k0 v] obj IH]; cbn.
  - destruct (String.eqb k k'); reflexivity.
  - destruct (String.eqb k' k0) eqn:E1; cbn.
    + apply String.eqb_eq in E1. subst k0.
      destruct (String.eqb k k'); reflexivity.
    + rewrite IH. destruct (String.eqb k k') eqn:E2; [| reflexivity].
      apply String.eqb_eq in E2. subst k. rewrite E1. reflexivity.
Qed.

Lemma pushAt_keys (k : string) (x : A) (obj : list (string * list A)) :
  map fst (pushAt A k x obj) = map fst obj.
Proof.
  induction obj as [| [k0 v] obj IH]; cbn; [reflexivity |].
  destruct (String.eqb k k0); cbn; [| rewrite IH]; reflexivity.
Qed.

Lemma lookupKey_app (k k' : string) (v : list A) (obj : list (string * list A)) :
  lookupKey A k (obj ++ [(k', v)]) =
    match lookupKey A k obj with
    | Some w => Some w
    | None => if String.eqb k k' then Some v else None
    end.
Proof.
  induction obj as [| [k0 w] obj IH]; cbn; [reflexivity |].
  destruct (String.eqb k k0); [reflexivity | exact IH].
Qed.

Lemma lookupKey_None_notin (k : string) (obj : list (string * list A)) :
  lookupKey A k obj = None -> ~ In k (map fst obj).
Proof.
  induction obj as [| [k0 w] obj IH]; cbn; [auto |].
  destruct (String.eqb k k0) eqn:E; [discriminate |].
  intros H [H0 | H0]; [subst; rewrite String.eqb_refl in E; discriminate |].
  exact (IH H H0).
Qed.

Lemma existsb_false_filter (k : string) (p : list A) :
  existsb (hasKey k) p = false -> filter (hasKey k) p = [].
Proof.
  induction p as [| y p IH]; cbn; [reflexivity |].
  destruct (hasKey k y); [discriminate | exact IH].
Qed.

Lemma isPrototypeKey_In (k : string) :
  isPrototypeKey k = true <-> In k objectPrototypeKeys.
Proof.
  unfold isPrototypeKey. rewrite existsb_exists. split.
  - intros (y & Hy & E). apply String.eqb_eq in E. subst. exact Hy.
  - intros H. exists k. split; [exact H | apply String.eqb_refl].
Qed.

(** What has been computed after the items [p]. *)
Definition groupByInv (p : list A) (st : option (list (string * list A))) : Prop :=
  (st = None <-> exists x, In x p /\ In (keyFn x) objectPrototypeKeys) /\
  forall obj, st = Some obj ->
    NoDup (map fst obj) /\
    forall k, lookupKey A k obj =
      if existsb (hasKey k) p then Some (filter (hasKey k) p) else None.

Lemma groupByInv_step (p : list A) (st : option (list (string * list A))) (x : A) :
  groupByInv p st -> groupByInv (p ++ [x]) (groupByStep A keyFn st x).
Proof.
  intros [Hnone Hsome]. destruct st as [obj |]; cbn [groupByStep].
  2: { split; [| intros; discriminate].
       split; [| intros; reflexivity]. intros _.
       destruct (proj1 Hnone eq_refl) as (y & Hy & Hp).
       exists y. split; [apply in_or_app; left |]; assumption. }
  assert (Hnp : forall y, In y p -> ~ In (keyFn y) objectPrototypeKeys).
  { intros y Hy Hp. assert (Some obj = None) by (apply Hnone; eauto). discriminate. }
  destruct (Hsome obj eq_refl) as [Hnd Hlk].
  set (key := keyFn x).
  destruct (lookupKey A key obj) as [g |] eqn:Elk.
  - (* the key is already present *)
    assert (Hex : existsb (hasKey key) p = true).
    { rewrite Hlk in Elk. destruct (existsb (hasKey key) p); [reflexivity | discriminate]. }
    split.
    + split; [discriminate |]. intros (y & Hy & Hp). exfalso.
      apply in_app_or in Hy. destruct Hy as [Hy | [<- | []]]; [exact (Hnp y Hy Hp) |].
      apply existsb_exists in Hex. destruct Hex as (z & Hz & Ez).
      unfold hasKey in Ez. apply String.eqb_eq in Ez.
      apply (Hnp z Hz). rewrite Ez. exact Hp.
    + intros obj' E. injection E as <-. split; [rewrite pushAt_keys; exact Hnd |].
      intros k. rewrite lookupKey_pushAt, existsb_app, filter_app. cbn.
      change (hasKey k x) with (String.eqb key k).
      destruct (String.eqb k key) eqn:Ek.
      * apply String.eqb_eq in Ek. subst k. rewrite Elk, String.eqb_refl.
        rewrite Hlk in Elk. rewrite Hex in Elk |- *. injection Elk as <-. reflexivity.
      * assert (Ek' : String.eqb key k = false) by (rewrite String.eqb_sym; exact Ek).
        rewrite Ek', orb_false_r, app_nil_r. apply Hlk.
  - (* a new key *)
    assert (Hex : existsb (hasKey key) p = false).
    { rewrite Hlk in Elk. destruct (existsb (hasKey key) p); [discriminate | reflexivity]. }
    destruct (existsb (String.eqb key) objectPrototypeKeys) eqn:Ep.
    + split; [| intros; discriminate]. split; [| intros; reflexivity]. intros _.
      exists x. split; [apply in_or_app; right; left; reflexivity |].
      apply isPrototypeKey_In. exact Ep.
    + split.
      * split; [discriminate |]. intros (y & Hy & Hp). exfalso.
        apply in_app_or in Hy. destruct Hy as [Hy | [<- | []]]; [exact (Hnp y Hy Hp) |].
        apply isPrototypeKey_In in Hp. unfold isPrototypeKey in Hp.
        fold key in Hp. congruence.
      * intros obj' E. injection E as <-. split.
        -- rewrite map_app. cbn. apply NoDup_snoc; [exact Hnd |].
           apply lookupKey_None_notin. exact Elk.
        -- intros k. rewrite lookupKey_app, existsb_app, filter_app, Hlk. cbn.
           change (hasKey k x) with (String.eqb key k).
           destruct (String.eqb k key) eqn:Ek.
           ++ apply String.eqb_eq in Ek. subst k. rewrite String.eqb_refl, Hex.
              rewrite (existsb_false_filter key p Hex). reflexivity.
           ++ assert (Ek' : String.eqb key k = false) by (rewrite String.eqb_sym; exact Ek).
              rewrite Ek', orb_false_r, app_nil_r.
              destruct (existsb (hasKey k) p); reflexivity.
Qed.

Lemma groupByInv_fold (l p : list A) (st : option (list (string * list A))) :
  groupByInv p st -> groupByInv (p ++ l) (fold_left (groupByStep A keyFn) l st).
Proof.
  revert p st. induction l as [| x l IH]; intros p st H; cbn.
  - rewrite app_nil_r. exact H.
  - replace (p ++ x :: l) with ((p ++ [x]) ++ l) by (rewrite <- app_assoc; reflexivity).
    apply IH. apply groupByInv_step. exact H.
Qed.

(** [groupBy] throws exactly when some item's key names a property of
    [Object.prototype]. Otherwise each key occurs once in the result, and
    the group of a key holds the items with that key in array order; a key
    no item has is absent. *)
Theorem groupBy_spec (array : list A) :
  (groupBy A keyFn array = None <->
     exists x, In x array /\ In (keyFn x) objectPrototypeKeys) /\
  (forall obj, groupBy A keyFn array = Some obj ->
     NoDup (map fst obj) /\
     forall k, lookupKey A k obj =
       if existsb (fun x => String.eqb (keyFn x) k) array
       then Some (filter (fun x => String.eqb (keyFn x) k) array) else None).
Proof.
  assert (H0 : groupByInv [] (Some [])).
  { split.
    - split; [discriminate | intros (x & [] & _)].
    - intros obj E. injection E as <-. split; [constructor | reflexivity]. }
  exact (groupByInv_fold array [] (Some []) H0).
Qed.

End GroupByProofs.

(** ** [retryWithBackoff] for an arbitrary operation *)

Section RetryGeneral.

Variables (A Err : Type) (fn : nat -> Err + A) (maxRetries : nat) (baseDelay : Z).

Definition retryResult (c : nat) : Outcome A Err :=
  match fn c with
  | inr a => Returned a
  | inl err => Thrown (Some err)
  end.

Lemma retryLoop_general (k i : nat) (lastError : option Err) :
  (i + S k = maxRetries)%nat ->
  exists c, (i <= c < maxRetries)%nat /\
    (forall j, (i <= j < c)%nat -> exists err, fn j = inl err) /\
    (forall err, fn c = inl err -> c = (maxRetries - 1)%nat) /\
    retryLoop A Err fn maxRetries baseDelay i (S k) lastError =
      (backoffTrace baseDelay i c ++ [Call c], retryResult c).
Proof.
  revert i lastError. induction k as [| k IH]; intros i lastError Hk.
  - exists i. rewrite retryLoop_S, backoffTrace_refl. unfold retryResult.
    split; [lia |]. split; [intros; exfalso; lia |]. split; [intros; lia |].
    destruct (fn i) as [err | a]; [| reflexivity].
    replace (Nat.ltb i (maxRetries - 1)) with false by (symmetry; apply Nat.ltb_ge; lia).
    reflexivity.
  - rewrite retryLoop_S. destruct (fn i) as [err | a] eqn:Ei.
    + destruct (IH (S i) (Some err) ltac:(lia)) as (c & Hc & Hfail & Hlast & Heq).
      exists c. split; [lia |]. split; [| split; [exact Hlast |]].
      * intros j Hj. destruct (Nat.eq_dec j i) as [-> | Hne]; [eauto |].
        apply Hfail. lia.
      * replace (Nat.ltb i (maxRetries - 1)) with true
          by (symmetry; apply Nat.ltb_lt; lia).
        rewrite Heq, (backoffTrace_cons baseDelay i c) by lia. reflexivity.
    + exists i. split; [lia |]. split; [intros; exfalso; lia |]. split.
      * intros err' E. congruence.
      * rewrite backoffTrace_refl. unfold retryResult. rewrite Ei. reflexivity.
Qed.

(** With [maxRetries >= 1], [retryWithBackoff] calls [fn] for
    [0, 1, .., c] for some [c < maxRetries], every call before [c] having
    failed, with the sleep [baseDelay * 2^i] after each failed call [i < c]
    and nothing after call [c]; it returns the value of call [c] if that
    call succeeds, and otherwise [c] is the last allowed call
    [maxRetries - 1] and its error is thrown. *)
Theorem retryWithBackoff_general :
  (1 <= maxRetries)%nat ->
  exists c, (c < maxRetries)%nat /\
    (forall j, (j < c)%nat -> exists err, fn j = inl err) /\
    (forall err, fn c = inl err -> c = (maxRetries - 1)%nat) /\
    retryWithBackoff A Err fn maxRetries baseDelay =
      (backoffTrace baseDelay 0 c ++ [Call c], retryResult c).
Proof.
  intros H. unfold retryWithBackoff.
  destruct (retryLoop_general (maxRetries - 1) 0 None ltac:(lia)) as (c & Hc & Hf & Hl & Heq).
  replace (S (maxRetries - 1)) with maxRetries in Heq by lia.
  exists c. split; [lia |]. split; [| exact (conj Hl Heq)].
  intros j Hj. apply Hf. lia.
Qed.

End RetryGeneral.

Lemma retryWithBackoff_general_witness :
  (1 <= 3)%nat /\
  exists c, (c < 3)%nat /\
    (forall j, (j < c)%nat -> exists err,
       failsThenSucceeds 1 (fun i : nat => i) tt j = inl err) /\
    (forall err, failsThenSucceeds 1 (fun i : nat => i) tt c = inl err -> c = (3 - 1)%nat) /\
    retryWithBackoff unit nat (failsThenSucceeds 1 (fun i => i) tt) 3 1000 =
      (backoffTrace 1000 0 c ++ [Call c],
       retryResult unit nat (failsThenSucceeds 1 (fun i => i) tt) c).
Proof.
  split; [lia |].
  exact (retryWithBackoff_general unit nat (failsThenSucceeds 1 (fun i => i) tt) 3 1000
           ltac:(lia)).
Defined.

(** ** TrackerService lifecycle *)

Import Tracker.

(** The activity [captureLocation] records for a new fix [u]: classified
    from the speed since the previous fix if there is one, otherwise the
    current activity. *)
Definition capturedActivity (w : World) (u : LocationUpdate) : ActivityType :=
  match lastLocation w with
  | Some last =>
      inferActivityFromSpeed
        (calculateSpeed last.(lu_location) u.(lu_location)
           last.(lu_timestamp) u.(lu_timestamp))
  | None => currentActivity w
  end.

(** [captureLocation] does nothing when the device has no fix. With a fix
    [u], it appends exactly one unprocessed record to the pending
    locations (fresh id, current trip id, the fix's position and time, and
    the activity classified against the previous fix, or the current
    activity when there is none), makes [u] the last fix and the recorded
    activity the current one, and changes nothing else (no timer, no state,
    no config). *)
Theorem captureLocation_spec (w : World) :
  captureLocation w =
    match deviceLocation w with
    | None => (inr tt, w, [])
    | Some u =>
        (inr tt,
         mkWorld (state w) (currentTripId w) (Some u) (capturedActivity w u)
           (config w) (trackingInterval w) (syncInterval w)
           (pendingLocations w ++
              [mkRawLocation (nextUUID w) (currentTripId w) u.(lu_location)
                 u.(lu_timestamp) (capturedActivity w u) None false])
           (savedConfig w) (deviceLocation w) (S (nextUUID w)),
         [])
    end.
Proof.
  destruct w as [st tid ll ca cfg ti si pend sc dev uid].
  destruct dev as [u |]; [| reflexivity].
  destruct ll as [l |]; reflexivity.
Qed.

(** [pauseTracking] sets the paused state and stops the tracking timer
    (if any); the trip id, the last fix, the activity, the sync timer, the
    pending fixes and the config are all kept. *)
Theorem pauseTracking_spec (w : World) :
  pauseTracking w =
    (inr tt,
     mkWorld paused (currentTripId w) (lastLocation w) (currentActivity w)
       (config w) None (syncInterval w) (pendingLocations w) (savedConfig w)
       (deviceLocation w) (nextUUID w),
     EvSetState paused ::
       match trackingInterval w with Some p => [EvClearInterval p] | None => [] end).
Proof.
  destruct w as [st tid ll ca cfg ti si pend sc dev uid].
  destruct ti as [p |]; reflexivity.
Qed.


(** A successful [startTracking] records the trip, sets the active state,
    saves the config as active for the trip (when a config is loaded),
    clears any running tracking and sync timers before creating new ones,
    and leaves a 600 s tracking timer and a 300 s sync timer. *)
Theorem startTracking_success (w : World) (tripId : string) :
  let '(r, w', t) := startTracking true tripId w in
  r = inr tt /\ state w' = active /\ currentTripId w' = Some tripId /\
  trackingInterval w' = Some 600000%Z /\ syncInterval w' = Some 300000%Z /\
  savedConfig w' =
    match config w with
    | Some c => Some (mkTrackerConfig true (Some tripId) c.(updateInterval))
    | None => savedConfig w
    end /\
  t = EvSetState active ::
        match config w with
        | Some c => [EvSaveConfig (mkTrackerConfig true (Some tripId) c.(updateInterval))]
        | None => []
        end ++
        match trackingInterval w with Some p => [EvClearInterval p] | None => [] end ++
        [EvSetInterval 600000%Z] ++
        match syncInterval w with Some q => [EvClearInterval q] | None => [] end ++
        [EvSetInterval 300000%Z].
Proof.
  destruct w as [st tid ll ca cfg ti si pend sc dev uid].
  destruct cfg as [c |]; destruct ti as [p |]; destruct si as [q |];
    destruct dev as [u |]; destruct ll as [l |];
    cbn; repeat split; reflexivity.
Qed.

(** [stopTracking] keeps the last fix, so after a stop and a new start the
    first fix of the new trip is classified against the last fix of the
    previous trip: the record appended for it carries the activity inferred
    from the speed between the two. *)
Theorem stop_start_uses_previous_fix (w : World) (tripId : string)
    (last u : LocationUpdate) :
  lastLocation w = Some last -> deviceLocation w = Some u ->
  let '(_, w1, _) := stopTracking w in
  let '(r, w2, _) := startTracking true tripId w1 in
  r = inr tt /\
  pendingLocations w2 =
    pendingLocations w ++
      [mkRawLocation (nextUUID w) (Some tripId) u.(lu_location) u.(lu_timestamp)
         (inferActivityFromSpeed
            (calculateSpeed last.(lu_location) u.(lu_location)
               last.(lu_timestamp) u.(lu_timestamp)))
         None false].
Proof.
  destruct w as [st tid ll ca cfg ti si pend sc dev uid]; cbn.
  intros -> ->.
  destruct cfg as [c |]; destruct ti as [p |]; destruct si as [q |];
    destruct pend as [| x xs]; cbn; split; reflexivity.
Qed.

Definition nextFix : LocationUpdate :=
  mkLocationUpdate (mkGeoPoint 48 3) 5 61000%Z.

Definition movingWorld : World :=
  mkWorld active (Some "trip-1"%string) (Some sampleFix) walking
    (Some (mkTrackerConfig true (Some "trip-1"%string) 30000%Z))
    (Some 30000%Z) (Some 300000%Z) [sampleRaw] None (Some nextFix) 1.

Lemma stop_start_uses_previous_fix_witness :
  lastLocation movingWorld = Some sampleFix /\
  deviceLocation movingWorld = Some nextFix /\
  let '(_, w1, _) := stopTracking movingWorld in
  let '(r, w2, _) := startTracking true "trip-2"%string w1 in
  r = inr tt /\
  pendingLocations w2 =
    pendingLocations movingWorld ++
      [mkRawLocation (nextUUID movingWorld) (Some "trip-2"%string)
         nextFix.(lu_location) nextFix.(lu_timestamp)
         (inferActivityFromSpeed
            (calculateSpeed sampleFix.(lu_location) nextFix.(lu_location)
               sampleFix.(lu_timestamp) nextFix.(lu_timestamp)))
         None false].
Proof.
  split; [reflexivity |]. split; [reflexivity |].
  exact (stop_start_uses_previous_fix movingWorld "trip-2"%string sampleFix nextFix
           eq_refl eq_refl).
Defined.

(** ** CurationService: cluster order and count *)

Import Curation.

Lemma length_le_concat {A : Type} (gs : list (list A)) :
  Forall (fun g => g <> []) gs -> (List.length gs <= List.length (List.concat gs))%nat.
Proof.
  induction gs as [| g gs IH]; intros H; cbn; [lia |].
  inversion H as [| ? ? Hg Hgs]; subst.
  rewrite length_app. destruct g as [| x g]; [congruence |]. cbn.
  specialize (IH Hgs). lia.
Qed.

(** The number of clusters is at most the number of photos, and at least
    one when there is a photo. *)
Lemma clusterPhotos_count (uuid : nat) (photos : list PhotoAnalysis) (tripId : string) :
  (List.length (fst (clusterPhotos uuid photos tripId)) <= List.length photos)%nat /\
  (photos <> [] -> (1 <= List.length (fst (clusterPhotos uuid photos tripId)))%nat).
Proof.
  pose proof (Permutation_length (sortByTimestamp_perm_acc photos [])) as Hlen.
  cbn [app] in Hlen. fold (sortByTimestamp photos) in Hlen.
  unfold clusterPhotos. destruct (sortByTimestamp photos) as [| first rest] eqn:Es.
  - split; [cbn; lia |]. intros Hne. destruct photos; [congruence | discriminate Hlen].
  - rewrite <- (length_map pc_photos).
    rewrite clusterLoop_groups. cbn [map app]. rewrite length_map.
    split.
    + rewrite Hlen.
      replace (first :: rest) with (List.concat (groups first [] rest))
        by (rewrite groups_concat; reflexivity).
      apply length_le_concat. apply groups_nonempty.
    + intros _. destruct (groups_head rest first []) as (r & gs & ->). cbn. lia.
Qed.

Definition mdLe (x y : PhotoMetadata) : Prop := (md_timestamp x <= md_timestamp y)%Z.

Lemma StronglySorted_app_inv {A : Type} (Rel : A -> A -> Prop) (l1 l2 : list A) :
  StronglySorted Rel (l1 ++ l2) ->
  StronglySorted Rel l1 /\ StronglySorted Rel l2 /\
  (forall x y, In x l1 -> In y l2 -> Rel x y).
Proof.
  induction l1 as [| a l1 IH]; intros H; cbn in H.
  - split; [constructor | split; [exact H | intros x y []]].
  - apply StronglySorted_inv in H. destruct H as [H Ha].
    destruct (IH H) as (H1 & H2 & H3).
    rewrite Forall_app in Ha. destruct Ha as [Ha1 Ha2].
    split; [constructor; assumption |]. split; [exact H2 |].
    intros x y [<- | Hx] Hy; [| exact (H3 x y Hx Hy)].
    rewrite Forall_forall in Ha2. exact (Ha2 y Hy).
Qed.

Lemma StronglySorted_map_toMetadata (l : list PhotoAnalysis) :
  StronglySorted tsLe l -> StronglySorted mdLe (map toMetadata l).
Proof.
  induction 1 as [| a l Hl IH Ha]; cbn; constructor; [exact IH |].
  rewrite Forall_map. eapply Forall_impl; [| exact Ha]. intros x H. exact H.
Qed.

Lemma in_last {A : Type} (m : A) (ms : list A) : In (last (m :: ms) m) (m :: ms).
Proof.
  revert m. induction ms as [| y ms IH]; intros m; [left; reflexivity |].
  change (last (m :: y :: ms) m) with (last (y :: ms) m).
  rewrite (last_cons_default y ms m y). right. apply IH.
Qed.

Lemma clusters_chronological (cs : list PhotoCluster) :
  Forall (fun c => exists m ms, pc_photos c = m :: ms /\
            startTime c = md_timestamp m /\
            endTime c = md_timestamp (last (m :: ms) m)) cs ->
  StronglySorted mdLe (List.concat (map pc_photos cs)) ->
  Forall (fun c => (startTime c <= endTime c)%Z) cs /\
  Forall (fun '(c1, c2) => (endTime c1 <= startTime c2)%Z) (adjacent cs).
Proof.
  induction cs as [| c cs IH]; intros Hf Hs; [split; constructor |].
  inversion Hf as [| ? ? (m & ms & Hp & Hst & Hen) Hf']; subst.
  cbn [map List.concat] in Hs. apply StronglySorted_app_inv in Hs.
  destruct Hs as (Hc & Hrest & Hcross).
  destruct (IH Hf' Hrest) as [IH1 IH2].
  split.
  - constructor; [| exact IH1]. rewrite Hst, Hen. rewrite Hp in Hc.
    destruct (in_last m ms) as [Heq | Hin]; [rewrite <- Heq; lia |].
    apply StronglySorted_inv in Hc. destruct Hc as [_ Hc].
    rewrite Forall_forall in Hc. exact (Hc _ Hin).
  - destruct cs as [| c2 cs]; [constructor |].
    change (adjacent (c :: c2 :: cs)) with ((c, c2) :: adjacent (c2 :: cs)).
    constructor; [| exact IH2].
    inversion Hf' as [| ? ? (m2 & ms2 & Hp2 & Hst2 & _) _]; subst.
    rewrite Hen, Hst2. apply (Hcross (last (m :: ms) m) m2).
    + rewrite Hp. apply in_last.
    + cbn [map List.concat]. rewrite Hp2. left. reflexivity.
Qed.

(** The clusters come out in time order: each cluster starts no later than
    it ends, and each ends no later than the next one starts. *)
Theorem clusterPhotos_chronological (uuid : nat) (photos : list PhotoAnalysis)
    (tripId : string) :
  let cs := fst (clusterPhotos uuid photos tripId) in
  Forall (fun c => (startTime c <= endTime c)%Z) cs /\
  Forall (fun '(c1, c2) => (endTime c1 <= startTime c2)%Z) (adjacent cs).
Proof.
  cbv zeta. apply clusters_chronological.
  - assert (Hf : Forall (isFinalized tripId) (fst (clusterPhotos uuid photos tripId))).
    { unfold clusterPhotos. destruct (sortByTimestamp photos) as [| first rest].
      - constructor.
      - apply clusterLoop_finalized. constructor. }
    eapply Forall_impl; [| exact Hf].
    intros c (u & first & rest & ->).
    destruct (finalizeCluster_spec u first rest tripId) as (m & ms & H1 & H2 & H3 & _).
    exists m, ms. split; [exact H1 | split; assumption].
  - assert (Hsorted : StronglySorted tsLe (sortByTimestamp photos)).
    { apply Sorted_StronglySorted; [exact tsLe_trans |].
      apply sortByTimestamp_sorted_acc. constructor. }
    apply StronglySorted_map_toMetadata in Hsorted.
    unfold clusterPhotos. destruct (sortByTimestamp photos) as [| first rest].
    + constructor.
    + rewrite clusterLoop_groups. cbn [map app].
      rewrite <- concat_map, groups_concat. exact Hsorted.
Qed.

(** ** CurationService: [curateTripPhotos] *)

Lemma length_filter_le {A : Type} (f : A -> bool) (l : list A) :
  (List.length (filter f l) <= List.length l)%nat.
Proof.
  induction l as [| x l IH]; cbn; [lia |]. destruct (f x); cbn; lia.
Qed.

(** [curateTripPhotos] refuses to start while a run is in progress and then
    leaves the service state unchanged. Otherwise it ends with
    [isRunning = false]; it reports every new photo as processed, each one
    either added (it passed the quality gate) or filtered, and creates at
    most one cluster per added photo and at least one when any photo was
    added. The last-scan time is set to the current time only when there
    were new photos. *)
Theorem curateTripPhotos_spec (st : CurationState) (newPhotos : list string)
    (analyzePhoto : string -> PhotoAnalysis) (now : Z) (uuid : nat) (tripId : string) :
  match curateTripPhotos st newPhotos analyzePhoto now uuid tripId with
  | (inl _, st') => isRunning st = true /\ st' = st
  | (inr r, st') =>
      isRunning st = false /\ isRunning st' = false /\
      photosProcessed r = List.length newPhotos /\
      photosAdded r = List.length (filter passesQualityGate (map analyzePhoto newPhotos)) /\
      (photosAdded r + photosFiltered r)%nat = photosProcessed r /\
      (clustersCreated r <= photosAdded r)%nat /\
      ((0 < photosAdded r)%nat -> (1 <= clustersCreated r)%nat) /\
      lastScanTimestamp st' =
        match newPhotos with [] => lastScanTimestamp st | _ => Some now end
  end.
Proof.
  unfold curateTripPhotos.
  destruct (isRunning st) eqn:Hr; [split; reflexivity |].
  destruct newPhotos as [| n ns] eqn:En.
  - cbn. repeat split; try reflexivity; lia.
  - cbn [photosProcessed photosAdded photosFiltered clustersCreated isRunning
         lastScanTimestamp].
    set (good := filter passesQualityGate (map analyzePhoto (n :: ns))).
    pose proof (length_filter_le passesQualityGate (map analyzePhoto (n :: ns))) as Hle.
    fold good in Hle. rewrite length_map in Hle |- *.
    destruct (clusterPhotos_count uuid good tripId) as [Hc1 Hc2].
    refine (conj eq_refl (conj eq_refl (conj eq_refl (conj eq_refl (conj _ (conj Hc1 (conj _ _))))))).
    + lia.
    + intros Hpos. apply Hc2. intros Hg. rewrite Hg in Hpos. cbn in Hpos. lia.
    + reflexivity.
Qed.

(** ** CurationService: [selectFeaturedPhotos] *)

(** [a] may precede [b] in the descending quality order. *)
Definition qualityGe (a b : PhotoMetadata) : Prop :=
  md_qualityScore b <= md_qualityScore a.

Lemma qualityGe_trans : Transitive qualityGe.
Proof. intros x y z; unfold qualityGe; lra. Qed.

Lemma insertByQuality_perm (x : PhotoMetadata) (l : list PhotoMetadata) :
  Permutation (x :: l) (insertByQuality x l).
Proof.
  induction l as [| y l IH]; cbn; [reflexivity |].
  destruct (Rle_dec (md_qualityScore x) (md_qualityScore y)); [| reflexivity].
  etransitivity; [apply perm_swap |]. constructor. exact IH.
Qed.

Lemma sortByQualityDesc_perm_acc (l acc : list PhotoMetadata) :
  Permutation (acc ++ l) (fold_left (fun sorted x => insertByQuality x sorted) l acc).
Proof.
  revert acc. induction l as [| x l IH]; intros acc; cbn.
  - rewrite app_nil_r. reflexivity.
  - rewrite <- IH. rewrite <- Permutation_middle.
    change (x :: acc ++ l) with ((x :: acc) ++ l).
    apply Permutation_app_tail. apply insertByQuality_perm.
Qed.

Lemma insertByQuality_hdrel (a x : PhotoMetadata) (l : list PhotoMetadata) :
  HdRel qualityGe a l -> qualityGe a x -> HdRel qualityGe a (insertByQuality x l).
Proof.
  intros Hl Hx. destruct l as [| y l]; cbn.
  - constructor. exact Hx.
  - destruct (Rle_dec (md_qualityScore x) (md_qualityScore y)); constructor;
      [inversion Hl; assumption | exact Hx].
Qed.

Lemma insertByQuality_sorted (x : PhotoMetadata) (l : list PhotoMetadata) :
  Sorted qualityGe l -> Sorted qualityGe (insertByQuality x l).
Proof.
  induction l as [| y l IH]; intros Hs; cbn.
  - repeat constructor.
  - inversion Hs as [| ? ? Hs' Hhd]; subst.
    destruct (Rle_dec (md_qualityScore x) (md_qualityScore y)) as [Hle | Hgt].
    + constructor; [apply IH; exact Hs' |].
      apply insertByQuality_hdrel; [exact Hhd | exact Hle].
    + constructor; [exact Hs |]. constructor. unfold qualityGe. lra.
Qed.

Lemma sortByQualityDesc_sorted_acc (l acc : list PhotoMetadata) :
  Sorted qualityGe acc ->
  Sorted qualityGe (fold_left (fun sorted x => insertByQuality x sorted) l acc).
Proof.
  revert acc. induction l as [| x l IH]; intros acc Hs; cbn; [exact Hs |].
  apply IH. apply insertByQuality_sorted. exact Hs.
Qed.

(** [selectFeaturedPhotos photos count] returns photos of the input in
    descending quality order, and no photo it leaves out has a higher
    quality than one it returns. It returns [min(count, n)] photos for
    [count >= 0]; a negative [count] drops the last [-count] photos
    instead (as [slice] does). *)
Theorem selectFeaturedPhotos_spec (photos : list PhotoMetadata) (count : Z) :
  let r := selectFeaturedPhotos photos count in
  (exists rest, Permutation photos (r ++ rest) /\
     forall x y, In x r -> In y rest -> md_qualityScore y <= md_qualityScore x) /\
  Sorted qualityGe r /\
  List.length r =
    (if Z.ltb count 0 then (List.length photos - Z.to_nat (- count))%nat
     else Nat.min (Z.to_nat count) (List.length photos)).
Proof.
  cbv zeta. unfold selectFeaturedPhotos, sliceTo.
  set (sorted := sortByQualityDesc photos).
  assert (Hperm : Permutation photos sorted) by exact (sortByQualityDesc_perm_acc photos []).
  assert (Hss : StronglySorted qualityGe sorted).
  { apply Sorted_StronglySorted; [exact qualityGe_trans |].
    apply sortByQualityDesc_sorted_acc. constructor. }
  assert (Hlen : List.length sorted = List.length photos) by
    (symmetry; apply Permutation_length; exact Hperm).
  rewrite Hlen.
  set (e := Z.to_nat (if Z.ltb count 0
                      then Z.max (Z.of_nat (List.length photos) + count) 0
                      else Z.min count (Z.of_nat (List.length photos)))).
  pose proof (firstn_skipn e sorted) as Hsplit.
  rewrite <- Hsplit in Hss.
  destruct (StronglySorted_app_inv qualityGe _ _ Hss) as (H1 & _ & H3).
  refine (conj _ (conj _ _)).
  - exists (skipn e sorted). rewrite Hsplit. split; [exact Hperm |].
    intros x y Hx Hy. exact (H3 x y Hx Hy).
  - apply StronglySorted_Sorted. exact H1.
  - rewrite length_firstn, Hlen. unfold e.
    destruct (Z.ltb_spec count 0); lia.
Qed.

(** ** [isValidEmail] *)

Import Helpers.

Lemma splits_In (l a b : JSString) : In (a, b) (splits l) <-> a ++ b = l.
Proof.
  revert a b. induction l as [| x l IH]; intros a b; cbn.
  - split.
    + intros [H | []]. injection H as <- <-. reflexivity.
    + intros H. apply app_eq_nil in H. destruct H as [-> ->]. left. reflexivity.
  - rewrite in_map_iff. split.
    + intros [H | ([a' b'] & H & Hin)].
      * injection H as <- <-. reflexivity.
      * injection H as <- <-. apply IH in Hin. cbn. rewrite Hin. reflexivity.
    + intros H. destruct a as [| y a].
      * left. cbn in H. rewrite H. reflexivity.
      * right. injection H as -> H. exists (a, b). split; [reflexivity |].
        apply IH. exact H.
Qed.

Definition emailChar (ch : Z) : Prop := isWhiteSpace ch = false /\ ch <> 64%Z.

Lemma notSpaceOrAt_iff (ch : Z) : notSpaceOrAt ch = true <-> emailChar ch.
Proof.
  unfold notSpaceOrAt, emailChar. rewrite andb_true_iff, !negb_true_iff, Z.eqb_neq.
  reflexivity.
Qed.

Lemma plusNotSpaceOrAt_iff (l : JSString) :
  plusNotSpaceOrAt l = true <-> l <> [] /\ Forall emailChar l.
Proof.
  unfold plusNotSpaceOrAt. destruct l as [| x l].
  - split; [discriminate | intros [H _]; congruence].
  - rewrite forallb_forall, Forall_forall. split.
    + intros H. split; [discriminate |]. intros y Hy. apply notSpaceOrAt_iff, H, Hy.
    + intros [_ H] y Hy. apply notSpaceOrAt_iff, H, Hy.
Qed.

(** [isValidEmail] accepts exactly the strings [local@b.c] where [local],
    [b] and [c] are non-empty and no part contains white space or ['@']
    ([b] and [c] may contain further dots). An accepted string therefore
    holds exactly one ['@']. *)
Theorem isValidEmail_spec (email : JSString) :
  (isValidEmail email = true <->
   exists localPart b c,
     email = localPart ++ 64%Z :: b ++ 46%Z :: c /\
     localPart <> [] /\ b <> [] /\ c <> [] /\
     Forall emailChar (localPart ++ b ++ c)) /\
  (isValidEmail email = true -> count_occ Z.eq_dec email 64%Z = 1%nat).
Proof.
  assert (Hiff : isValidEmail email = true <->
     exists localPart b c,
       email = localPart ++ 64%Z :: b ++ 46%Z :: c /\
       localPart <> [] /\ b <> [] /\ c <> [] /\
       Forall emailChar (localPart ++ b ++ c)).
  { unfold isValidEmail. rewrite existsb_exists. split.
    - intros ([a r] & Hin & H). apply splits_In in Hin.
      destruct r as [| z d]; [discriminate |].
      destruct (Z.eq_dec z 64) as [-> | Hz].
      2: { destruct z as [| p | p]; try discriminate.
           repeat (destruct p as [p | p |]; try discriminate). congruence. }
      apply andb_true_iff in H. destruct H as [Ha H].
      apply existsb_exists in H. destruct H as ([b r2] & Hin2 & H2).
      apply splits_In in Hin2.
      destruct r2 as [| y c]; [discriminate |].
      destruct (Z.eq_dec y 46) as [-> | Hy].
      2: { destruct y as [| p | p]; try discriminate.
           repeat (destruct p as [p | p |]; try discriminate). congruence. }
      apply andb_true_iff in H2. destruct H2 as [Hb Hc].
      apply plusNotSpaceOrAt_iff in Ha, Hb, Hc.
      exists a, b, c. subst. repeat split; try tauto.
      rewrite !Forall_app. tauto.
    - intros (a & b & c & -> & Ha & Hb & Hc & Hf).
      rewrite !Forall_app in Hf. destruct Hf as (Fa & Fb & Fc).
      exists (a, 64%Z :: b ++ 46%Z :: c). split; [apply splits_In; reflexivity |].
      apply andb_true_iff. split; [apply plusNotSpaceOrAt_iff; tauto |].
      apply existsb_exists. exists (b, 46%Z :: c).
      split; [apply splits_In; reflexivity |].
      apply andb_true_iff. split; apply plusNotSpaceOrAt_iff; tauto. }
  split; [exact Hiff |].
  intros H. apply Hiff in H. destruct H as (a & b & c & -> & _ & _ & _ & Hf).
  assert (Hno : forall l, Forall emailChar l -> count_occ Z.eq_dec l 64%Z = 0%nat).
  { intros l Hl. apply count_occ_not_In. intros Hin.
    rewrite Forall_forall in Hl. destruct (Hl _ Hin) as [_ Hne]. congruence. }
  rewrite !Forall_app in Hf. destruct Hf as (Fa & Fb & Fc).
  rewrite count_occ_app. cbn [count_occ].
  destruct (Z.eq_dec 64 64) as [_ | Hne]; [| congruence].
  rewrite count_occ_app. cbn [count_occ].
  destruct (Z.eq_dec 46 64) as [Heq | _]; [discriminate |].
  rewrite (Hno a Fa), (Hno b Fb), (Hno c Fc). reflexivity.
Qed.
